(** * clean_comments.py: the comment scanner and the per-file workflow

    A shallow embedding of [remove_comments_swift] and [process_file].
    A Python [str] is a sequence of characters; it is modelled as a
    [list ascii].  The scanner only ever compares characters against the
    double quote, the backslash, the slash, the star and the newline, so
    the size of the alphabet plays no role.

    The [while] loop works on the local variables [i], [output],
    [in_string], [in_multiline], [in_line_comment] and
    [block_comment_depth]; they are the fields of [locals].  An access
    [source[i]] out of range raises [IndexError] in Python: the loop body
    [step] returns [None] there. *)

From stdpp Require Import base option list strings gmap.
From Stdlib Require Import Ascii ZArith Lia.

Local Open Scope Z_scope.
Local Open Scope nat_scope.
Local Open Scope char_scope.

(** ** Characters the scanner looks at *)

Definition dquote : ascii := "034".
Definition bslash : ascii := "092".
Definition slash : ascii := "/".
Definition star : ascii := "*".
Definition newline : ascii := "010".

(** The string constants passed to [startswith] and to [output.append]. *)
Definition triple_quote : list ascii := [dquote; dquote; dquote].
Definition line_open : list ascii := [slash; slash].
Definition block_open : list ascii := [slash; star].
Definition block_close : list ascii := [star; slash].

(** ** Python primitives *)

Fixpoint is_prefix (p l : list ascii) : bool :=
  match p, l with
  | [], _ => true
  | _ :: _, [] => false
  | a :: p', b :: l' => Ascii.eqb b a && is_prefix p' l'
  end.

(** [source.startswith(prefix, i)]: does [source[i:]] begin with [prefix]. *)
Definition startswith (source prefix : list ascii) (i : nat) : bool :=
  is_prefix prefix (drop i source).

(** [str.join] on the empty separator. *)
Definition join (pieces : list (list ascii)) : list ascii := concat pieces.

(** ** Local variables of [remove_comments_swift] *)

Record locals := Locals {
  i : nat;
  output : list (list ascii);
  in_string : bool;
  in_multiline : bool;
  in_line_comment : bool;
  block_comment_depth : Z
}.

Definition initial : locals := Locals 0 [] false false false 0%Z.

(** [output.append(piece)] *)
Definition append (piece : list ascii) (st : locals) : locals :=
  Locals (i st) (output st ++ [piece]) (in_string st) (in_multiline st)
         (in_line_comment st) (block_comment_depth st).

(** [i += k] *)
Definition advance (k : nat) (st : locals) : locals :=
  Locals (i st + k) (output st) (in_string st) (in_multiline st)
         (in_line_comment st) (block_comment_depth st).

Definition set_in_string (b : bool) (st : locals) : locals :=
  Locals (i st) (output st) b (in_multiline st)
         (in_line_comment st) (block_comment_depth st).

Definition set_in_multiline (b : bool) (st : locals) : locals :=
  Locals (i st) (output st) (in_string st) b
         (in_line_comment st) (block_comment_depth st).

Definition set_in_line_comment (b : bool) (st : locals) : locals :=
  Locals (i st) (output st) (in_string st) (in_multiline st)
         b (block_comment_depth st).

Definition set_depth (d : Z) (st : locals) : locals :=
  Locals (i st) (output st) (in_string st) (in_multiline st)
         (in_line_comment st) d.

(** ** The loop body

    One iteration of [while i < n], entered with [i < n].  The five blocks
    follow the source in order; each ends in [continue]. *)

(** The inner [if i + 1 < n] of both backslash branches: the cursor moves
    on to the escaped character, which is appended as well. *)
Definition escape_next (source : list ascii) (st : locals) : option locals :=
  if bool_decide (i st + 1 < length source) then
    let st := advance 1 st in
    c' ← source !! i st;
    Some (append [c'] st)
  else Some st.

Definition step (source : list ascii) (st : locals) : option locals :=
  if in_string st then
    c ← source !! i st;
    let st := append [c] st in
    st ← (if Ascii.eqb c bslash then escape_next source st
          else if Ascii.eqb c dquote then Some (set_in_string false st)
          else Some st);
    Some (advance 1 st)
  else if in_multiline st then
    if startswith source triple_quote (i st) then
      Some (set_in_multiline false (advance 3 (append triple_quote st)))
    else
      c ← source !! i st;
      if Ascii.eqb c bslash then
        st ← escape_next source (append [c] st);
        Some (advance 1 st)
      else Some (advance 1 (append [c] st))
  else if in_line_comment st then
    c ← source !! i st;
    if Ascii.eqb c newline then
      Some (advance 1 (append [c] (set_in_line_comment false st)))
    else Some (advance 1 st)
  else if bool_decide (0 < block_comment_depth st)%Z then
    if startswith source block_open (i st) then
      Some (advance 2 (set_depth (block_comment_depth st + 1) st))
    else if startswith source block_close (i st) then
      Some (advance 2 (set_depth (block_comment_depth st - 1) st))
    else Some (advance 1 st)
  else if startswith source triple_quote (i st) then
    Some (advance 3 (set_in_multiline true (append triple_quote st)))
  else
    c ← source !! i st;
    if Ascii.eqb c dquote then
      Some (advance 1 (set_in_string true (append [dquote] st)))
    else if startswith source line_open (i st) then
      Some (advance 2 (set_in_line_comment true st))
    else if startswith source block_open (i st) then
      Some (advance 2 (set_depth 1 st))
    else Some (advance 1 (append [c] st)).

(** [iterate k source st]: at most [k] iterations of the [while] loop from
    [st]; the loop guard [i < n] is tested before each of them. *)
Fixpoint iterate (k : nat) (source : list ascii) (st : locals) : option locals :=
  match k with
  | 0 => Some st
  | S k' =>
    if bool_decide (i st < length source) then
      st' ← step source st; iterate k' source st'
    else Some st
  end.

(** The whole function.  Every iteration advances [i], so [len(source)]
    iterations are enough (see [iterate_reaches_end]); a run whose guard
    still held after them would be reported as [None]. *)
Definition remove_comments_swift (source : list ascii) : option (list ascii) :=
  st ← iterate (length source) source initial;
  if bool_decide (i st < length source) then None
  else Some (join (output st)).

(** A literal of the examples, as a character sequence. *)
Definition chars (s : string) : list ascii := String.list_ascii_of_string s.

(** ** The five lexical states

    The four state variables are only ever used in five combinations: all
    off (code), exactly one flag on, or a positive depth with the flags
    off.  [config m p out] is the value of the local variables in lexical
    state [m] at cursor [p] with the pieces [out] appended so far. *)

Inductive mode : Type :=
| Code
| InString
| InMultilineString
| InLineComment
| InBlockComment (d : positive).

Global Instance mode_eq_dec : EqDecision mode.
Proof. solve_decision. Defined.

Definition depth_of (m : mode) : Z :=
  match m with InBlockComment d => Z.pos d | _ => 0%Z end.

Definition config (m : mode) (p : nat) (out : list (list ascii)) : locals :=
  Locals p out
         (bool_decide (m = InString))
         (bool_decide (m = InMultilineString))
         (bool_decide (m = InLineComment))
         (depth_of m).

(** What one iteration does, read off the text [r = source[i:]] that is
    still ahead: the pieces it appends, the lexical state it leaves and the
    number of characters it consumes.  [step_config] shows that [step]
    does exactly this. *)
Record move := Move {
  emitted : list (list ascii);
  next : mode;
  consumed : nat
}.

Definition escape_move (m : mode) (c : ascii) (r1 : list ascii) : move :=
  match r1 with
  | [] => Move [[c]] m 1
  | c' :: _ => Move [[c]; [c']] m 2
  end.

Definition close_block (d : positive) : mode :=
  if bool_decide (d = 1%positive) then Code else InBlockComment (Pos.pred d).

Definition transition (m : mode) (r : list ascii) : move :=
  match r with
  | [] => Move [] m 0
  | c :: r1 =>
    match m with
    | InString =>
      if Ascii.eqb c bslash then escape_move InString c r1
      else if Ascii.eqb c dquote then Move [[c]] Code 1
      else Move [[c]] InString 1
    | InMultilineString =>
      if is_prefix triple_quote r then Move [triple_quote] Code 3
      else if Ascii.eqb c bslash then escape_move InMultilineString c r1
      else Move [[c]] InMultilineString 1
    | InLineComment =>
      if Ascii.eqb c newline then Move [[c]] Code 1
      else Move [] InLineComment 1
    | InBlockComment d =>
      if is_prefix block_open r then Move [] (InBlockComment (Pos.succ d)) 2
      else if is_prefix block_close r then Move [] (close_block d) 2
      else Move [] (InBlockComment d) 1
    | Code =>
      if is_prefix triple_quote r then Move [triple_quote] InMultilineString 3
      else if Ascii.eqb c dquote then Move [[dquote]] InString 1
      else if is_prefix line_open r then Move [] InLineComment 2
      else if is_prefix block_open r then Move [] (InBlockComment 1) 2
      else Move [[c]] Code 1
    end
  end.

(** [k] iterations in a row, on the text ahead. *)
Fixpoint moves (k : nat) (m : mode) (r : list ascii) : move :=
  match k, r with
  | S k', _ :: _ =>
    let mv := transition m r in
    let mv' := moves k' (next mv) (drop (consumed mv) r) in
    Move (emitted mv ++ emitted mv') (next mv') (consumed mv + consumed mv')
  | _, _ => Move [] m 0
  end.

(** The characters a scan that starts in state [m] produces from [r]. *)
Definition scan (m : mode) (r : list ascii) : list ascii :=
  join (emitted (moves (length r) m r)).

(** ** Literals and texts the properties speak about *)

(** The body of a single-line literal: plain characters, which are neither
    a backslash nor a double quote, and escape pairs, a backslash with the
    character after it. *)
Fixpoint string_body (r : list ascii) : bool :=
  match r with
  | [] => true
  | c :: r1 =>
    if Ascii.eqb c bslash then
      match r1 with [] => false | _ :: r2 => string_body r2 end
    else negb (Ascii.eqb c dquote) && string_body r1
  end.

(** The body of a triple-quoted literal: escape pairs and single
    characters, where no three double quotes in a row begin at a single
    character before the three that close the literal. *)
Fixpoint multiline_body (r : list ascii) : bool :=
  match r with
  | [] => true
  | c :: r1 =>
    if Ascii.eqb c bslash then
      match r1 with [] => false | _ :: r2 => multiline_body r2 end
    else negb (is_prefix triple_quote (r ++ triple_quote)) && multiline_body r1
  end.

(** [pat] occurs somewhere in [l] as a block of adjacent characters. *)
Fixpoint occurs (pat l : list ascii) : bool :=
  is_prefix pat l || match l with [] => false | _ :: l' => occurs pat l' end.

(** No newline among the characters of [l]. *)
Definition no_newline (l : list ascii) : bool :=
  forallb (λ c, negb (Ascii.eqb c newline)) l.

(** Two double quotes directly followed by the opening of a block
    comment. *)
Definition quotes_then_block : list ascii := [dquote; dquote; slash; star].

(** The state in which the output of a scan is read again: what the two
    comment states leave behind is read as code. *)
Definition reread (m : mode) : mode :=
  match m with
  | InLineComment | InBlockComment _ => Code
  | _ => m
  end.

(** ** The per-file workflow

    A path names a file through the file system: [inode] gives the file a
    path resolves to, symbolic and hard links followed, so two paths may
    name one file.  [texts] gives the text of a file as [f.read()] returns
    it; when the path does not resolve, or the file has no text that can be
    read, [open] for reading raises.  A file in [read_only] cannot be
    opened for writing: [open] raises there and leaves the file as it is.
    The trace records what is printed and every write that takes place. *)

Inductive event : Type :=
| Print (line : string)
| Write (path : string) (content : list ascii).

Record world := World {
  inode : gmap string nat;
  texts : gmap nat (list ascii);
  read_only : gset nat;
  trace : list event
}.

(** [print(line)] *)
Definition print (line : string) (w : world) : world :=
  World (inode w) (texts w) (read_only w) (trace w ++ [Print line]).

(** [open(file_path, 'r')] and [f.read()]: the file and its text. *)
Definition read_file (file_path : string) (w : world)
    : option (nat * list ascii) :=
  f ← inode w !! file_path;
  content ← texts w !! f;
  Some (f, content).

(** The text a path gives when it is read. *)
Definition read_text (w : world) (path : string) : option (list ascii) :=
  snd <$> read_file path w.

(** The exceptions of [process_file], by the statement that raises. *)
Inductive error : Type :=
| ReadFailed
| ScanFailed
| WriteFailed.

(** A call returns, or raises; either way with the world it leaves. *)
Inductive outcome : Type :=
| Done (w : world)
| Raised (e : error) (w : world).

Definition world_of (o : outcome) : world :=
  match o with Done w | Raised _ w => w end.

Definition process_file (file_path : string) (w : world) : outcome :=
  match read_file file_path w with
  | None => Raised ReadFailed w
  | Some (f, content) =>
    match remove_comments_swift content with
    | None => Raised ScanFailed w
    | Some new_content =>
      if bool_decide (new_content ≠ content) then
        let w := print ("Cleaning " +:+ file_path)%string w in
        if bool_decide (f ∈ read_only w) then Raised WriteFailed w
        else
          Done (World (inode w) (<[f := new_content]> (texts w)) (read_only w)
                      (trace w ++ [Write file_path new_content]))
      else Done (print ("No comments found in " +:+ file_path)%string w)
    end
  end.

(** ** Further notions on texts *)

(** The body of a block comment that does not nest: before the two
    characters that close the comment, no position starts with the
    opening or with the closing delimiter. *)
Fixpoint block_body (r : list ascii) : bool :=
  match r with
  | [] => true
  | _ :: r1 =>
    negb (is_prefix block_open (r ++ block_close))
    && negb (is_prefix block_close (r ++ block_close))
    && block_body r1
  end.

(** The number of newline characters of a text. *)
Definition line_breaks (l : list ascii) : nat :=
  length (filter (λ c, c = newline) l).

(** ** The command line entry point

    [main] walks a directory tree and runs [process_file] on every file
    whose extension is in the allow-list.  What the Python library does is
    taken as given: [walk] stands for [os.walk], a list of triples of a
    directory path, its directory names and its file names; [splitext] for
    [os.path.splitext]; [path_join] for [os.path.join]; [exception_text]
    for the text of the exception that a path raises.  [process_file]
    changes the text of files only, so the walk does not depend on the
    world. *)

Inductive status : Type :=
| Returned
| SystemExit (code : nat).

Definition extensions : list string := [".swift"%string].

Definition usage : string := "Usage: python3 clean_comments.py <directory>"%string.

Section Main.
Variable walk : string → list (string * list string * list string).
Variable splitext : string → string * string.
Variable path_join : string → string → string.
Variable exception_text : error → string → string.

(** The body of the inner [for]: one file name of one directory. *)
Definition visit_file (dirpath filename : string) (w : world) : world :=
  let ext := (splitext filename).2 in
  if bool_decide (ext ∈ extensions) then
    let full_path := path_join dirpath filename in
    match process_file full_path w with
    | Done w' => w'
    | Raised e w' =>
      print ("Error processing " +:+ full_path +:+ ": "
             +:+ exception_text e full_path)%string w'
    end
  else w.

(** The body of the outer [for]: one triple of the walk. *)
Definition visit_directory (w : world)
    (entry : string * list string * list string) : world :=
  foldl (λ w filename, visit_file entry.1.1 filename w) w entry.2.

Definition main (argv : list string) (w : world) : status * world :=
  match argv with
  | _ :: root_dir :: _ =>
    (Returned, foldl visit_directory w (walk root_dir))
  | _ =>
    (SystemExit 1, print usage w)
  end.

(** The file names of one triple of the walk that pass the extension
    filter, as the full paths [main] hands to [process_file]. *)
Definition selected_in (entry : string * list string * list string)
    : list string :=
  filename ← entry.2;
  if bool_decide ((splitext filename).2 ∈ extensions)
  then [path_join entry.1.1 filename] else [].

(** The selected paths of the whole walk, in the order of the traversal. *)
Definition selected (root_dir : string) : list string :=
  walk root_dir ≫= selected_in.
End Main.

(** The lines printed so far. *)
Definition printed (t : list event) : list string :=
  omap (λ e, match e with Print line => Some line | Write _ _ => None end) t.


(** The same on the files themselves: paths resolve as before, the same
    files are read-only, and every file that had a text has one that is a
    subsequence of it. *)
Definition store_shrinks (w w' : world) : Prop :=
  inode w' = inode w
  ∧ read_only w' = read_only w
  ∧ ∀ f, option_Forall2 (λ c c' : list ascii, c' `sublist_of` c)
           (texts w !! f) (texts w' !! f).

(** The lines that report on one selected path: one line when the file was
    cleaned, had no comments or could not be read; two when the report of
    the cleaning was printed and the write then failed. *)
Definition report_of (exception_text : error → string → string)
    (path : string) (lines : list string) : Prop :=
  lines = [("Cleaning " +:+ path)%string]
  ∨ lines = [("No comments found in " +:+ path)%string]
  ∨ lines = [("Error processing " +:+ path +:+ ": "
              +:+ exception_text ReadFailed path)%string]
  ∨ lines = [("Cleaning " +:+ path)%string;
             ("Error processing " +:+ path +:+ ": "
              +:+ exception_text WriteFailed path)%string].

(** What a part of the traversal that selects the paths [sel] does: the
    files shrink, a file that none of the selected paths resolves to keeps
    its text, and the lines printed are the reports on the selected paths
    in their order. *)
Definition visits (exception_text : error → string → string)
    (sel : list string) (w w' : world) : Prop :=
  store_shrinks w w'
  ∧ (∀ g, Forall (λ q, inode w !! q ≠ Some g) sel →
          texts w' !! g = texts w !! g)
  ∧ ∃ blocks,
      printed (trace w') = printed (trace w) ++ concat blocks
      ∧ Forall2 (report_of exception_text) sel blocks.

(** ** Facts about the primitives *)

Lemma is_prefix_nil_l (l : list ascii) : is_prefix [] l = true.
Proof. done. Qed.

Lemma is_prefix_nil_r a (p : list ascii) : is_prefix (a :: p) [] = false.
Proof. done. Qed.

Lemma is_prefix_cons a b (p l : list ascii) :
  is_prefix (a :: p) (b :: l) = Ascii.eqb b a && is_prefix p l.
Proof. done. Qed.

#[local] Arguments Ascii.eqb : simpl never.
#[local] Arguments is_prefix : simpl never.

Lemma is_prefix_spec (p l : list ascii) :
  is_prefix p l = true ↔ ∃ l', l = p ++ l'.
Proof.
  revert l. induction p as [|a p IH]; intros l.
  - rewrite is_prefix_nil_l. split; eauto.
  - destruct l as [|b l].
    + rewrite is_prefix_nil_r. split; [done | intros [l' ?]; done].
    + rewrite is_prefix_cons, andb_true_iff, IH. split.
      * intros [Hab [l' ->]]. apply Ascii.eqb_eq in Hab as ->. eauto.
      * intros [l' [= -> ->]]. split; [apply Ascii.eqb_refl | eauto].
Qed.

Lemma is_prefix_length (p l : list ascii) :
  is_prefix p l = true → length p ≤ length l.
Proof.
  intros [l' ->]%is_prefix_spec. rewrite length_app. lia.
Qed.

Lemma is_prefix_app (p l : list ascii) : is_prefix p (p ++ l) = true.
Proof. apply is_prefix_spec. eauto. Qed.

(** [startswith] at an index within the text looks at [drop]. *)
Lemma lookup_drop_head (source : list ascii) (p : nat) :
  source !! p = head (drop p source).
Proof.
  rewrite <- (Nat.add_0_r p) at 1. rewrite <- lookup_drop.
  by destruct (drop p source).
Qed.

Lemma drop_cons_inv (source : list ascii) (p : nat) c r :
  drop p source = c :: r →
  source !! p = Some c ∧ drop (p + 1) source = r ∧ p < length source.
Proof.
  intros H. split_and!.
  - by rewrite lookup_drop_head, H.
  - by rewrite <- drop_drop, H.
  - apply (f_equal length) in H. rewrite length_drop in H. simpl in H. lia.
Qed.

(** ** The loop body on the five lexical states *)

Lemma escape_next_spec (source : list ascii) (p : nat) out s m l d c r1 :
  drop p source = c :: r1 →
  escape_next source (Locals p out s m l d) =
    Some (match r1 with
          | [] => Locals p out s m l d
          | c' :: _ => Locals (p + 1) (out ++ [[c']]) s m l d
          end).
Proof.
  intros Hd. destruct (drop_cons_inv _ _ _ _ Hd) as (_ & Hr1 & Hlt).
  unfold escape_next; simpl.
  destruct r1 as [|c' r2].
  - apply (f_equal length) in Hr1. rewrite length_drop in Hr1. simpl in Hr1.
    rewrite bool_decide_eq_false_2 by lia. done.
  - destruct (drop_cons_inv _ _ _ _ Hr1) as (Hc' & _ & Hlt').
    rewrite bool_decide_eq_true_2 by lia. by rewrite Hc'.
Qed.

Lemma close_block_depth (d : positive) :
  depth_of (close_block d) = (Z.pos d - 1)%Z.
Proof.
  unfold close_block. case_bool_decide; simpl; [subst; done | lia].
Qed.

Lemma close_block_flags (d : positive) :
  close_block d ≠ InString ∧ close_block d ≠ InMultilineString
  ∧ close_block d ≠ InLineComment.
Proof. unfold close_block. case_bool_decide; done. Qed.

(** Closes a goal that compares two values of the local variables. *)
Ltac same_locals :=
  unfold config, advance, append, set_in_string, set_in_multiline,
    set_in_line_comment, set_depth; simpl;
  rewrite <- ?app_assoc, ?app_nil_r; simpl;
  first [ done | do 2 f_equal; first [ done | lia ] ].

(** One iteration from a lexical state is the move read off the text. *)
Lemma step_config (source : list ascii) (m : mode) (p : nat) out :
  p < length source →
  step source (config m p out) =
    Some (let mv := transition m (drop p source) in
          config (next mv) (p + consumed mv) (out ++ emitted mv)).
Proof.
  intros Hp.
  destruct (drop p source) as [|c r1] eqn:Hd.
  { apply (f_equal length) in Hd. rewrite length_drop in Hd. simpl in Hd. lia. }
  destruct (drop_cons_inv _ _ _ _ Hd) as (Hc & Hr1 & _).
  unfold step, startswith.
  destruct m as [| | | |d]; simpl; rewrite ?Hd, ?Hc; simpl.
  - (* Code *)
    destruct (is_prefix triple_quote (c :: r1)); [same_locals|].
    destruct (Ascii.eqb c dquote); [same_locals|].
    destruct (is_prefix line_open (c :: r1)); [same_locals|].
    destruct (is_prefix block_open (c :: r1)); same_locals.
  - (* InString *)
    destruct (Ascii.eqb c bslash).
    + unfold append; simpl. rewrite (escape_next_spec _ _ _ _ _ _ _ _ _ Hd).
      destruct r1; same_locals.
    + destruct (Ascii.eqb c dquote); same_locals.
  - (* InMultilineString *)
    destruct (is_prefix triple_quote (c :: r1)); [same_locals|].
    destruct (Ascii.eqb c bslash); [|same_locals].
    unfold append; simpl. rewrite (escape_next_spec _ _ _ _ _ _ _ _ _ Hd).
    destruct r1; same_locals.
  - (* InLineComment *)
    destruct (Ascii.eqb c newline); same_locals.
  - (* InBlockComment *)
    destruct (is_prefix block_open (c :: r1)); [same_locals|].
    destruct (is_prefix block_close (c :: r1)); [|same_locals].
    destruct (close_block_flags d) as (? & ? & ?).
    unfold config, advance, set_depth; simpl. rewrite close_block_depth.
    rewrite !bool_decide_eq_false_2 by done. by rewrite app_nil_r.
Qed.

(** ** Moves on the text ahead *)

#[local] Arguments transition : simpl never.

Lemma escape_move_consumed (m : mode) c (r1 : list ascii) :
  1 ≤ consumed (escape_move m c r1) ≤ length (c :: r1)
  ∧ next (escape_move m c r1) = m.
Proof. destruct r1; simpl; split; (lia || done). Qed.

(** Every move consumes at least one character and stays within the text. *)
Lemma transition_consumed (m : mode) (r : list ascii) :
  r ≠ [] → 1 ≤ consumed (transition m r) ≤ length r.
Proof.
  destruct r as [|c r1]; [done|intros _].
  assert (∀ pat, is_prefix pat (c :: r1) = true → length pat ≤ length (c :: r1))
    as Hpre by (intros; by apply is_prefix_length).
  pose proof (Hpre triple_quote) as H3. pose proof (Hpre line_open) as H2.
  pose proof (Hpre block_open) as H2'. pose proof (Hpre block_close) as H2''.
  clear Hpre.
  destruct m; unfold transition;
    repeat match goal with
    | |- context [if ?b then _ else _] =>
        let E := fresh "E" in destruct b eqn:E
    | |- context [escape_move ?m ?c ?r] =>
        pose proof (escape_move_consumed m c r); generalize dependent (escape_move m c r); intros
    end; simpl in *; try specialize (H3 eq_refl); try specialize (H2 eq_refl);
    try specialize (H2' eq_refl); try specialize (H2'' eq_refl); lia.
Qed.

Lemma moves_nil (k : nat) (m : mode) : moves k m [] = Move [] m 0.
Proof. by destruct k. Qed.

Lemma moves_S (k : nat) (m : mode) c (r1 : list ascii) :
  moves (S k) m (c :: r1) =
    let mv := transition m (c :: r1) in
    let mv' := moves k (next mv) (drop (consumed mv) (c :: r1)) in
    Move (emitted mv ++ emitted mv') (next mv') (consumed mv + consumed mv').
Proof. done. Qed.

(** Once the number of iterations covers the text, more change nothing. *)
Lemma moves_enough (k k' : nat) (m : mode) (r : list ascii) :
  length r ≤ k → length r ≤ k' → moves k m r = moves k' m r.
Proof.
  revert k' m r. induction k as [|k IH]; intros k' m r Hk Hk'.
  - destruct r; [|simpl in Hk; lia]. by rewrite !moves_nil.
  - destruct r as [|c r1]; [by rewrite !moves_nil|].
    destruct k' as [|k']; [simpl in Hk'; lia|].
    rewrite !moves_S. simpl in Hk, Hk'.
    pose proof (transition_consumed m (c :: r1) ltac:(done)) as Hc.
    cbv zeta. rewrite (IH k'); [done| |]; rewrite length_drop; simpl in *; lia.
Qed.

(** A run that covers the text consumes all of it. *)
Lemma moves_consumed (k : nat) (m : mode) (r : list ascii) :
  length r ≤ k → consumed (moves k m r) = length r.
Proof.
  revert m r. induction k as [|k IH]; intros m r Hk.
  - destruct r; [done|simpl in Hk; lia].
  - destruct r as [|c r1]; [done|]. rewrite moves_S. cbv zeta. simpl consumed.
    pose proof (transition_consumed m (c :: r1) ltac:(done)) as Hc.
    simpl in Hk, Hc. rewrite IH; rewrite length_drop; simpl; lia.
Qed.

Lemma scan_nil (m : mode) : scan m [] = [].
Proof. done. Qed.

(** The scan of a text that is not empty: the pieces of the first move,
    then the scan of what the move leaves. *)
Lemma scan_unfold (m : mode) c (r1 : list ascii) :
  scan m (c :: r1) =
    join (emitted (transition m (c :: r1)))
    ++ scan (next (transition m (c :: r1)))
            (drop (consumed (transition m (c :: r1))) (c :: r1)).
Proof.
  unfold scan, join. cbn [length]. rewrite moves_S. cbv zeta. cbn [emitted].
  rewrite concat_app. f_equal.
  pose proof (transition_consumed m (c :: r1) ltac:(done)) as Hc.
  f_equal. f_equal. apply moves_enough; rewrite ?length_drop; simpl in *; lia.
Qed.

(** ** The loop against the moves *)

Lemma iterate_config (source : list ascii) (k : nat) (m : mode) (p : nat) out :
  p ≤ length source →
  iterate k source (config m p out) =
    Some (let mv := moves k m (drop p source) in
          config (next mv) (p + consumed mv) (out ++ emitted mv)).
Proof.
  revert m p out. induction k as [|k IH]; intros m p out Hp.
  - simpl. by rewrite Nat.add_0_r, app_nil_r.
  - cbn [iterate]. simpl i. case_bool_decide as Hlt.
    + rewrite step_config by done. simpl mbind. cbv zeta.
      destruct (drop p source) as [|c r1] eqn:Hd.
      { apply (f_equal length) in Hd. rewrite length_drop in Hd. simpl in Hd. lia. }
      pose proof (transition_consumed m (c :: r1) ltac:(done)) as Hc.
      assert (length (c :: r1) = length source - p) as Hlen
        by (by rewrite <- Hd, length_drop).
      rewrite IH by lia. rewrite moves_S. cbv zeta.
      generalize dependent (transition m (c :: r1)). intros mv Hmv.
      rewrite <- Hd, drop_drop. simpl.
      f_equal. rewrite <- !app_assoc. f_equal. lia.
    + rewrite drop_ge by lia. rewrite moves_nil. simpl.
      by rewrite Nat.add_0_r, app_nil_r.
Qed.

(** The function computes the scan from the code state. *)
Lemma remove_comments_swift_scan (source : list ascii) :
  remove_comments_swift source = Some (scan Code source).
Proof.
  unfold remove_comments_swift.
  change initial with (config Code 0 []).
  rewrite iterate_config by lia. simpl mbind. cbv zeta.
  rewrite drop_0, moves_consumed by done. simpl.
  by rewrite bool_decide_eq_false_2 by lia.
Qed.

(** ** Progress of the loop, from any value of the local variables *)

Lemma startswith_bound (source pat : list ascii) (p : nat) :
  p < length source → startswith source pat p = true →
  p + length pat ≤ length source.
Proof.
  unfold startswith. intros Hp H%is_prefix_length.
  rewrite length_drop in H. lia.
Qed.

Lemma escape_next_progress (source : list ascii) (st : locals) :
  i st < length source →
  ∃ st', escape_next source st = Some st' ∧ i st ≤ i st' ∧ i st' < length source.
Proof.
  intros Hp. unfold escape_next. case_bool_decide as Hlt.
  - destruct (lookup_lt_is_Some_2 source (i (advance 1 st))) as [c' Hc'];
      [simpl; lia|].
    rewrite Hc'. eexists; split; [done|]. simpl. lia.
  - eexists; split; [done|]. lia.
Qed.

Lemma step_progress (source : list ascii) (st : locals) :
  i st < length source →
  ∃ st', step source st = Some st' ∧ i st < i st' ∧ i st' ≤ length source.
Proof.
  intros Hp.
  destruct (lookup_lt_is_Some_2 source (i st) Hp) as [c Hc].
  pose proof (startswith_bound source triple_quote (i st) Hp) as H3.
  pose proof (startswith_bound source line_open (i st) Hp) as H2.
  pose proof (startswith_bound source block_open (i st) Hp) as H2'.
  pose proof (startswith_bound source block_close (i st) Hp) as H2''.
  assert (∀ st0, i st0 = i st →
            ∃ st', (st1 ← escape_next source st0; Some (advance 1 st1)) = Some st'
                   ∧ i st < i st' ∧ i st' ≤ length source) as Hesc.
  { intros st0 E. destruct (escape_next_progress source st0) as (st1 & -> & ? & ?);
      [lia|]. eexists; split; [done|]. simpl. lia. }
  unfold step. rewrite Hc. simpl.
  repeat match goal with
  | |- context [Ascii.eqb c bslash] => destruct (Ascii.eqb c bslash)
  | |- context [escape_next source ?s] => by apply Hesc
  | |- context [if ?b then _ else _] => let E := fresh "E" in destruct b eqn:E
  end;
  (eexists; split; [done|]; simpl in *;
   try specialize (H3 eq_refl); try specialize (H2 eq_refl);
   try specialize (H2' eq_refl); try specialize (H2'' eq_refl); lia).
Qed.

Lemma iterate_reaches_end (source : list ascii) (k : nat) (st : locals) :
  length source - i st ≤ k →
  ∃ st', iterate k source st = Some st' ∧ length source ≤ i st'.
Proof.
  revert st. induction k as [|k IH]; intros st Hk.
  - exists st. split; [done|lia].
  - cbn [iterate]. case_bool_decide as Hlt.
    + destruct (step_progress source st Hlt) as (st1 & -> & ? & ?).
      simpl. apply IH. lia.
    + exists st. split; [done|lia].
Qed.

(** Past the end of the text the loop is over: more iterations are idle. *)
Lemma iterate_at_end (source : list ascii) (k : nat) (st : locals) :
  length source ≤ i st → iterate k source st = Some st.
Proof.
  intros Hend. destruct k; [done|]. cbn [iterate].
  by rewrite bool_decide_eq_false_2 by lia.
Qed.

Lemma iterate_add (source : list ascii) (k k' : nat) (st : locals) :
  iterate (k + k') source st = iterate k source st ≫= iterate k' source.
Proof.
  revert st. induction k as [|k IH]; intros st; [done|].
  cbn [Nat.add iterate]. case_bool_decide as Hlt.
  - destruct (step source st) as [st1|]; simpl; [apply IH|done].
  - simpl. by rewrite iterate_at_end by lia.
Qed.

Lemma iterate_cursor_mono (source : list ascii) (k : nat) (st st' : locals) :
  iterate k source st = Some st' → i st ≤ i st'.
Proof.
  revert st. induction k as [|k IH]; intros st; [by intros [= ->]|].
  cbn [iterate]. case_bool_decide as Hlt; [|by intros [= ->]].
  destruct (step_progress source st Hlt) as (st1 & -> & ? & ?). simpl.
  intros Hit%IH. lia.
Qed.

(** ** Comparing characters *)

(** Decides the comparisons between the five characters of the scanner. *)
Ltac char_consts :=
  repeat match goal with
  | |- context [Ascii.eqb ?a ?b] =>
      let v := eval vm_compute in (Ascii.eqb a b) in
      match v with
      | true => change (Ascii.eqb a b) with true
      | false => change (Ascii.eqb a b) with false
      end
  | H : context [Ascii.eqb ?a ?b] |- _ =>
      let v := eval vm_compute in (Ascii.eqb a b) in
      match v with
      | true => change (Ascii.eqb a b) with true in H
      | false => change (Ascii.eqb a b) with false in H
      end
  end.

(** Splits on a comparison with a character [c] that is not known, and
    replaces [c] when the comparison succeeds. *)
Ltac char_case c k :=
  let E := fresh "E" in
  destruct (Ascii.eqb c k) eqn:E;
  [ apply Ascii.eqb_eq in E; subst c | ].

Ltac prefix_simpl :=
  rewrite ?is_prefix_cons, ?is_prefix_nil_l, ?is_prefix_nil_r in *.

(** ** The scan, state by state *)

Lemma scan_code (c : ascii) (r1 : list ascii) :
  scan Code (c :: r1) =
    if is_prefix triple_quote (c :: r1)
    then triple_quote ++ scan InMultilineString (drop 3 (c :: r1))
    else if Ascii.eqb c dquote then dquote :: scan InString r1
    else if is_prefix line_open (c :: r1)
    then scan InLineComment (drop 2 (c :: r1))
    else if is_prefix block_open (c :: r1)
    then scan (InBlockComment 1) (drop 2 (c :: r1))
    else c :: scan Code r1.
Proof.
  rewrite scan_unfold. unfold transition.
  repeat match goal with
  | |- context [if ?b then _ else _] => destruct b
  end; done.
Qed.

Lemma scan_string (c : ascii) (r1 : list ascii) :
  scan InString (c :: r1) =
    if Ascii.eqb c bslash then
      match r1 with
      | [] => [c]
      | c' :: r2 => c :: c' :: scan InString r2
      end
    else if Ascii.eqb c dquote then c :: scan Code r1
    else c :: scan InString r1.
Proof.
  rewrite scan_unfold. unfold transition.
  destruct (Ascii.eqb c bslash); [by destruct r1|].
  by destruct (Ascii.eqb c dquote).
Qed.

Lemma scan_multiline (c : ascii) (r1 : list ascii) :
  scan InMultilineString (c :: r1) =
    if is_prefix triple_quote (c :: r1)
    then triple_quote ++ scan Code (drop 3 (c :: r1))
    else if Ascii.eqb c bslash then
      match r1 with
      | [] => [c]
      | c' :: r2 => c :: c' :: scan InMultilineString r2
      end
    else c :: scan InMultilineString r1.
Proof.
  rewrite scan_unfold. unfold transition.
  destruct (is_prefix triple_quote (c :: r1)); [done|].
  destruct (Ascii.eqb c bslash); [by destruct r1|done].
Qed.

Lemma scan_line_comment (c : ascii) (r1 : list ascii) :
  scan InLineComment (c :: r1) =
    if Ascii.eqb c newline then c :: scan Code r1
    else scan InLineComment r1.
Proof.
  rewrite scan_unfold. unfold transition.
  by destruct (Ascii.eqb c newline).
Qed.

Lemma scan_block_comment (d : positive) (c : ascii) (r1 : list ascii) :
  scan (InBlockComment d) (c :: r1) =
    if is_prefix block_open (c :: r1)
    then scan (InBlockComment (Pos.succ d)) (drop 2 (c :: r1))
    else if is_prefix block_close (c :: r1)
    then scan (close_block d) (drop 2 (c :: r1))
    else scan (InBlockComment d) r1.
Proof.
  rewrite scan_unfold. unfold transition.
  destruct (is_prefix block_open (c :: r1)); [done|].
  by destruct (is_prefix block_close (c :: r1)).
Qed.

(** ** The output is a subsequence of the input *)

Lemma is_prefix_take (pat r : list ascii) :
  is_prefix pat r = true → take (length pat) r = pat.
Proof. intros [r' ->]%is_prefix_spec. by rewrite take_app_length. Qed.

Lemma escape_move_emitted (m : mode) c (r1 : list ascii) :
  join (emitted (escape_move m c r1))
  = take (consumed (escape_move m c r1)) (c :: r1).
Proof. by destruct r1. Qed.

(** A move appends nothing, or exactly the characters it consumes. *)
Lemma transition_emitted (m : mode) (r : list ascii) :
  join (emitted (transition m r)) = []
  ∨ join (emitted (transition m r)) = take (consumed (transition m r)) r.
Proof.
  destruct r as [|c r1]; [by left|].
  unfold transition.
  destruct m.
  - destruct (is_prefix triple_quote (c :: r1)) eqn:E3;
      [right; symmetry; exact (is_prefix_take triple_quote _ E3)|].
    char_case c dquote; [by right|].
    destruct (is_prefix line_open (c :: r1)); [by left|].
    destruct (is_prefix block_open (c :: r1)); [by left|by right].
  - destruct (Ascii.eqb c bslash); [right; apply escape_move_emitted|].
    destruct (Ascii.eqb c dquote); by right.
  - destruct (is_prefix triple_quote (c :: r1)) eqn:E3;
      [right; symmetry; exact (is_prefix_take triple_quote _ E3)|].
    destruct (Ascii.eqb c bslash); [right; apply escape_move_emitted|by right].
  - destruct (Ascii.eqb c newline); [by right|by left].
  - left. destruct (is_prefix block_open (c :: r1)); [done|].
    by destruct (is_prefix block_close (c :: r1)).
Qed.

Lemma scan_sublist (m : mode) (r : list ascii) : scan m r `sublist_of` r.
Proof.
  remember (length r) as n eqn:Hn. revert m r Hn.
  induction n as [n IH] using lt_wf_ind. intros m r ->.
  destruct r as [|c r1]; [done|].
  rewrite scan_unfold.
  pose proof (transition_consumed m (c :: r1) ltac:(done)) as Hc.
  pose proof (transition_emitted m (c :: r1)) as Hem.
  generalize dependent (transition m (c :: r1)). intros mv Hc Hem.
  rewrite <- (take_drop (consumed mv) (c :: r1)) at 2.
  apply sublist_app.
  - destruct Hem as [-> | ->]; [apply sublist_nil_l | done].
  - eapply IH; [|done]. rewrite length_drop. simpl in *. lia.
Qed.

(** ** Scanning the output again *)

Lemma is_prefix_firstn (pat l : list ascii) :
  is_prefix pat l = is_prefix pat (take (length pat) l).
Proof.
  revert l. induction pat as [|a pat IH]; intros l; [done|].
  destruct l as [|b l]; [done|]. cbn [length take].
  by rewrite !is_prefix_cons, <- IH.
Qed.

Lemma occurs_cons (pat : list ascii) c (l : list ascii) :
  occurs pat (c :: l) = false →
  is_prefix pat (c :: l) = false ∧ occurs pat l = false.
Proof. cbn [occurs]. by intros [? ?]%orb_false_iff. Qed.

Lemma occurs_drop (pat : list ascii) (k : nat) (l : list ascii) :
  occurs pat l = false → occurs pat (drop k l) = false.
Proof.
  revert l. induction k as [|k IH]; intros l H; [done|].
  destruct l as [|c l]; [done|]. apply occurs_cons in H as [_ H]. by apply IH.
Qed.

(** What a line comment leaves starts with the newline that ends it. *)
Lemma scan_line_comment_first (r : list ascii) :
  scan InLineComment r = [] ∨ ∃ t, scan InLineComment r = newline :: t.
Proof.
  induction r as [|c r IH]; [by left|].
  rewrite scan_line_comment. char_case c newline; eauto.
Qed.

(** In the code state a character other than the slash comes out first. *)
Lemma scan_code_first (c : ascii) (r1 : list ascii) :
  Ascii.eqb c slash = false → ∃ t, scan Code (c :: r1) = c :: t.
Proof.
  intros Hc. rewrite scan_code.
  destruct (is_prefix triple_quote (c :: r1)) eqn:E3.
  { apply is_prefix_spec in E3 as [t E3]. injection E3 as -> ->. eauto. }
  char_case c dquote; [eauto|].
  unfold line_open, block_open. prefix_simpl. rewrite Hc. simpl. eauto.
Qed.

Lemma scan_string_first (c : ascii) (r1 : list ascii) :
  ∃ t, scan InString (c :: r1) = c :: t.
Proof.
  rewrite scan_string.
  destruct (Ascii.eqb c bslash); [destruct r1; eauto|].
  destruct (Ascii.eqb c dquote); eauto.
Qed.

Lemma scan_multiline_first (c : ascii) (r1 : list ascii) :
  ∃ t, scan InMultilineString (c :: r1) = c :: t.
Proof.
  rewrite scan_multiline.
  destruct (is_prefix triple_quote (c :: r1)) eqn:E3.
  { apply is_prefix_spec in E3 as [t E3]. injection E3 as -> ->. eauto. }
  destruct (Ascii.eqb c bslash); [destruct r1; eauto|eauto].
Qed.

(** A triple-quoted literal comes out with its first two characters. *)
Lemma scan_multiline_take (r : list ascii) :
  take 2 (scan InMultilineString r) = take 2 r.
Proof.
  destruct r as [|x [|y r2]]; [done| |].
  - rewrite scan_multiline. unfold triple_quote. prefix_simpl.
    rewrite andb_false_r. by destruct (Ascii.eqb x bslash).
  - rewrite scan_multiline.
    destruct (is_prefix triple_quote (x :: y :: r2)) eqn:E3.
    { apply is_prefix_spec in E3 as [t E3]. by injection E3 as -> -> ->. }
    destruct (Ascii.eqb x bslash); [done|].
    by destruct (scan_multiline_first y r2) as [t ->].
Qed.

(** After an empty literal that is not followed by a block comment, what
    the code state produces does not start with a double quote. *)
Lemma scan_code_no_quote (r : list ascii) :
  is_prefix [dquote] r = false → is_prefix block_open r = false →
  is_prefix [dquote] (scan Code r) = false.
Proof.
  destruct r as [|c r1]; [done|]. intros Hq Hb.
  char_case c slash.
  - rewrite scan_code. unfold triple_quote. prefix_simpl. char_consts. simpl.
    rewrite Hb.
    destruct (is_prefix line_open (slash :: r1)).
    + match goal with |- context [scan InLineComment ?x] =>
        destruct (scan_line_comment_first x) as [-> | [t ->]] end;
        [done|]. prefix_simpl. by char_consts.
    + prefix_simpl. by char_consts.
  - destruct (scan_code_first c r1 E) as [t ->]. by prefix_simpl.
Qed.

Lemma scan_string_no_quotes (r1 : list ascii) :
  is_prefix [dquote; dquote] r1 = false →
  is_prefix quotes_then_block (dquote :: r1) = false →
  is_prefix [dquote; dquote] (scan InString r1) = false.
Proof.
  destruct r1 as [|c2 r2]; [done|]. intros Hqq Hqb.
  rewrite scan_string.
  char_case c2 bslash; [destruct r2; prefix_simpl; by char_consts|].
  char_case c2 dquote.
  - unfold quotes_then_block in Hqb. prefix_simpl. char_consts. simpl in *.
    by apply scan_code_no_quote.
  - prefix_simpl. by rewrite E0.
Qed.

(** In the code state a slash that opens no comment is not followed, in
    the output, by a slash or a star. *)
Lemma scan_code_after_slash (r1 : list ascii) (k : ascii) :
  is_prefix [slash] r1 = false →
  is_prefix [k] r1 = false →
  is_prefix [k] (scan Code r1) = false.
Proof.
  intros Hs Hk. destruct r1 as [|x r]; [done|].
  prefix_simpl. rewrite andb_true_r in Hs, Hk.
  destruct (scan_code_first x r Hs) as [t ->]. prefix_simpl.
  by rewrite Hk.
Qed.

Lemma scan_code_triple (r : list ascii) :
  scan Code (triple_quote ++ r) = triple_quote ++ scan InMultilineString r.
Proof.
  change (triple_quote ++ r) with (dquote :: dquote :: dquote :: r).
  rewrite scan_code. unfold triple_quote. prefix_simpl. by char_consts.
Qed.

Lemma scan_multiline_triple (r : list ascii) :
  scan InMultilineString (triple_quote ++ r) = triple_quote ++ scan Code r.
Proof.
  change (triple_quote ++ r) with (dquote :: dquote :: dquote :: r).
  rewrite scan_multiline. unfold triple_quote. prefix_simpl. by char_consts.
Qed.

(** Texts without [quotes_then_block]: reading the output of a scan again,
    in the state the scan started from, changes nothing. *)
Lemma scan_twice (m : mode) (r : list ascii) :
  occurs quotes_then_block r = false →
  scan (reread m) (scan m r) = scan m r.
Proof.
  remember (length r) as n eqn:Hn. revert m r Hn.
  induction n as [n IH] using lt_wf_ind. intros m r -> Hocc.
  destruct r as [|c r1]; [by destruct m|].
  assert (∀ m' k, 1 ≤ k → scan (reread m') (scan m' (drop k (c :: r1)))
                           = scan m' (drop k (c :: r1))) as IHk.
  { intros m' k Hk. eapply IH; [|done|by apply occurs_drop].
    rewrite length_drop. simpl. lia. }
  pose proof (IHk Code 1 ltac:(lia)) as IHcode.
  pose proof (IHk InString 1 ltac:(lia)) as IHstr.
  pose proof (IHk InMultilineString 1 ltac:(lia)) as IHml.
  pose proof (IHk InLineComment 1 ltac:(lia)) as IHlc.
  cbn [skipn reread] in IHcode, IHstr, IHml, IHlc.
  rewrite drop_0 in IHcode, IHstr, IHml, IHlc.
  apply occurs_cons in Hocc as [Hhere Hocc].
  destruct m as [| | | |d]; cbn [reread].
  - (* Code *)
    destruct (is_prefix triple_quote (c :: r1)) eqn:E3.
    { apply is_prefix_spec in E3 as [r3 E3].
      specialize (IHk InMultilineString 3 ltac:(lia)). rewrite E3 in IHk |- *.
      change (drop 3 (triple_quote ++ r3)) with r3 in IHk.
      cbn [reread] in IHk. by rewrite !scan_code_triple, IHk. }
    rewrite (scan_code c r1), E3.
    char_case c dquote.
    { rewrite scan_code.
      assert (is_prefix triple_quote (dquote :: scan InString r1) = false) as ->.
      { unfold triple_quote in *. prefix_simpl. char_consts. simpl in *.
        by apply scan_string_no_quotes. }
      char_consts. by rewrite IHstr. }
    destruct (is_prefix line_open (c :: r1)) eqn:E2.
    { apply (IHk InLineComment 2). lia. }
    destruct (is_prefix block_open (c :: r1)) eqn:E2'.
    { apply (IHk (InBlockComment 1) 2). lia. }
    rewrite scan_code.
    unfold triple_quote, line_open, block_open in *. prefix_simpl. rewrite E. simpl.
    char_case c slash.
    + char_consts. simpl in *.
      rewrite (scan_code_after_slash r1 slash), (scan_code_after_slash r1 star)
        by done.
      by rewrite IHcode.
    + simpl. by rewrite IHcode.
  - (* InString *)
    rewrite (scan_string c r1).
    char_case c bslash.
    { destruct r1 as [|c' r2]; [done|].
      specialize (IHk InString 2 ltac:(lia)). cbn [skipn reread] in IHk.
      rewrite drop_0 in IHk.
      rewrite scan_string. char_consts. by rewrite IHk. }
    char_case c dquote.
    { rewrite scan_string. char_consts. by rewrite IHcode. }
    rewrite scan_string, E, E0. by rewrite IHstr.
  - (* InMultilineString *)
    destruct (is_prefix triple_quote (c :: r1)) eqn:E3.
    { apply is_prefix_spec in E3 as [r3 E3].
      specialize (IHk Code 3 ltac:(lia)). rewrite E3 in IHk |- *.
      change (drop 3 (triple_quote ++ r3)) with r3 in IHk.
      cbn [reread] in IHk. by rewrite !scan_multiline_triple, IHk. }
    rewrite (scan_multiline c r1), E3.
    char_case c bslash.
    { destruct r1 as [|c' r2]; [done|].
      specialize (IHk InMultilineString 2 ltac:(lia)). cbn [skipn reread] in IHk.
      rewrite drop_0 in IHk.
      rewrite scan_multiline. unfold triple_quote. prefix_simpl. char_consts.
      simpl. by rewrite IHk. }
    rewrite scan_multiline, E.
    rewrite (is_prefix_firstn _ (c :: scan _ _)). cbn [length triple_quote take].
    rewrite scan_multiline_take.
    change (c :: take 2 r1) with (take (length triple_quote) (c :: r1)).
    rewrite <- is_prefix_firstn, E3. by rewrite IHml.
  - (* InLineComment *)
    rewrite (scan_line_comment c r1).
    char_case c newline; [|done].
    rewrite scan_code. unfold triple_quote, line_open, block_open.
    prefix_simpl. char_consts. simpl. by rewrite IHcode.
  - (* InBlockComment *)
    rewrite (scan_block_comment d c r1).
    destruct (is_prefix block_open (c :: r1)).
    { apply (IHk (InBlockComment (Pos.succ d)) 2). lia. }
    destruct (is_prefix block_close (c :: r1)).
    + specialize (IHk (close_block d) 2 ltac:(lia)). revert IHk.
      unfold close_block. by case_bool_decide.
    + apply (IHk (InBlockComment d) 1). lia.
Qed.

(** ** Runs over a comment or a literal *)

Lemma is_prefix_app_l (pat l l' : list ascii) :
  length pat ≤ length l → is_prefix pat (l ++ l') = is_prefix pat l.
Proof.
  intros Hlen. rewrite (is_prefix_firstn pat (l ++ l')), (is_prefix_firstn pat l).
  by rewrite take_app_le.
Qed.

Lemma is_prefix_other (k c : ascii) (pat l : list ascii) :
  Ascii.eqb c k = false → is_prefix (k :: pat) (c :: l) = false.
Proof. intros H. by rewrite is_prefix_cons, H. Qed.

(** A line comment body: every character up to the newline is dropped,
    the newline is appended. *)
Lemma line_comment_moves (body rest : list ascii) :
  no_newline body = true →
  moves (length body + 1) InLineComment (body ++ newline :: rest)
  = Move [[newline]] Code (length body + 1).
Proof.
  induction body as [|c body IH]; intros Hnl.
  - cbn [app length Nat.add]. rewrite moves_S. unfold transition. by char_consts.
  - cbn [no_newline forallb] in Hnl. apply andb_true_iff in Hnl as [Hc Hnl].
    apply negb_true_iff in Hc.
    cbn [app length Nat.add]. rewrite moves_S. unfold transition. rewrite Hc.
    cbv zeta. cbn [next consumed emitted].
    change (drop 1 (c :: body ++ newline :: rest)) with (body ++ newline :: rest).
    by rewrite (IH Hnl).
Qed.

(** A line comment that reaches the end of the text leaves nothing. *)
Lemma line_comment_moves_end (body : list ascii) :
  no_newline body = true →
  moves (length body) InLineComment body
  = Move [] InLineComment (length body).
Proof.
  induction body as [|c body IH]; intros Hnl; [done|].
  cbn [no_newline forallb] in Hnl. apply andb_true_iff in Hnl as [Hc Hnl].
  apply negb_true_iff in Hc.
  cbn [length]. rewrite moves_S. unfold transition. rewrite Hc.
  cbv zeta. cbn [next consumed emitted].
  change (drop 1 (c :: body)) with body. by rewrite (IH Hnl).
Qed.

(** The body of a single-line literal and its closing quote come out as
    they are, and the scan is back in the code state. *)
Lemma string_moves (body rest : list ascii) :
  string_body body = true →
  ∃ k pieces,
    moves k InString (body ++ dquote :: rest)
    = Move pieces Code (length body + 1)
    ∧ join pieces = body ++ [dquote].
Proof.
  remember (length body) as n eqn:Hn. revert body Hn.
  induction n as [n IH] using lt_wf_ind. intros body -> Hbody.
  destruct body as [|c b1].
  - exists 1, [[dquote]]. split; [|done].
    cbn [app]. rewrite moves_S. unfold transition. by char_consts.
  - cbn [string_body] in Hbody. char_case c bslash.
    + destruct b1 as [|c' b2]; [done|].
      destruct (IH (length b2) ltac:(simpl; lia) b2 eq_refl Hbody)
        as (k & pieces & Hk & Hj).
      exists (S k), ([[bslash]; [c']] ++ pieces). split.
      * cbn [app]. rewrite moves_S. unfold transition. char_consts.
        cbv zeta. cbn [escape_move next consumed emitted].
        change (drop 2 (bslash :: c' :: ?t)) with t.
        rewrite Hk. cbn [next consumed emitted length]. f_equal; lia.
      * unfold join in *. rewrite concat_app, Hj. done.
    + apply andb_true_iff in Hbody as [Hq Hbody]. apply negb_true_iff in Hq.
      destruct (IH (length b1) ltac:(simpl; lia) b1 eq_refl Hbody)
        as (k & pieces & Hk & Hj).
      exists (S k), ([[c]] ++ pieces). split.
      * cbn [app]. rewrite moves_S. unfold transition. rewrite E, Hq.
        cbv zeta. cbn [next consumed emitted].
        change (drop 1 (c :: ?t)) with t.
        rewrite Hk. cbn [next consumed emitted length]. f_equal; lia.
      * unfold join in *. rewrite concat_app, Hj. done.
Qed.

(** The same for the body of a triple-quoted literal and the three quotes
    that close it. *)
Lemma multiline_moves (body rest : list ascii) :
  multiline_body body = true →
  ∃ k pieces,
    moves k InMultilineString (body ++ triple_quote ++ rest)
    = Move pieces Code (length body + 3)
    ∧ join pieces = body ++ triple_quote.
Proof.
  remember (length body) as n eqn:Hn. revert body Hn.
  induction n as [n IH] using lt_wf_ind. intros body -> Hbody.
  destruct body as [|c b1].
  - exists 1, [triple_quote]. split; [|done].
    change ([] ++ triple_quote ++ rest) with (dquote :: dquote :: dquote :: rest).
    rewrite moves_S. unfold transition, triple_quote. prefix_simpl.
    by char_consts.
  - cbn [multiline_body] in Hbody. char_case c bslash.
    + destruct b1 as [|c' b2]; [done|].
      destruct (IH (length b2) ltac:(simpl; lia) b2 eq_refl Hbody)
        as (k & pieces & Hk & Hj).
      exists (S k), ([[bslash]; [c']] ++ pieces). split.
      * cbn [app]. rewrite moves_S. unfold transition.
        assert (is_prefix triple_quote (bslash :: c' :: b2 ++ triple_quote ++ rest)
                = false) as -> by (by apply is_prefix_other).
        char_consts.
        cbv zeta. cbn [escape_move next consumed emitted].
        change (drop 2 (bslash :: c' :: ?t)) with t.
        rewrite Hk. cbn [next consumed emitted length]. f_equal; lia.
      * unfold join in *. rewrite concat_app, Hj. done.
    + apply andb_true_iff in Hbody as [Hq Hbody]. apply negb_true_iff in Hq.
      destruct (IH (length b1) ltac:(simpl; lia) b1 eq_refl Hbody)
        as (k & pieces & Hk & Hj).
      exists (S k), ([[c]] ++ pieces). split.
      * assert (is_prefix triple_quote ((c :: b1) ++ triple_quote ++ rest)
                = false) as Hq'.
        { rewrite app_assoc, is_prefix_app_l; [done|].
          rewrite length_app. simpl. lia. }
        cbn [app] in Hq' |- *. rewrite moves_S. unfold transition. rewrite Hq', E.
        cbv zeta. cbn [next consumed emitted].
        change (drop 1 (c :: ?t)) with t.
        rewrite Hk. cbn [next consumed emitted length]. f_equal; lia.
      * unfold join in *. rewrite concat_app, Hj. done.
Qed.

(** ** Texts without a comment opener *)


(** * The properties *)

(** ** Totality *)

(** C7.  The scan never fails and always ends: whatever the text, also
    with a literal or a comment left open, the function returns a string;
    every iteration of the loop, from any value of the local variables,
    succeeds and moves the cursor forward without leaving the text; and
    from any such value the loop runs to the end of the text within as
    many iterations as characters remain. *)
Theorem remove_comments_swift_total (source : list ascii) :
  (∃ result, remove_comments_swift source = Some result)
  ∧ (∀ st, i st < length source →
       ∃ st', step source st = Some st' ∧ i st < i st' ∧ i st' ≤ length source)
  ∧ (∀ st k, length source - i st ≤ k →
       ∃ st', iterate k source st = Some st' ∧ length source ≤ i st').
Proof.
  split_and!.
  - unfold remove_comments_swift.
    destruct (iterate_reaches_end source (length source) initial)
      as (st' & -> & Hend); [simpl; lia|].
    simpl. rewrite bool_decide_eq_false_2 by lia. eauto.
  - apply step_progress.
  - intros st k. apply iterate_reaches_end.
Qed.

Lemma remove_comments_swift_total_witness :
  ∃ st', step (chars "/* open") (config (InBlockComment 1) 2 []) = Some st'
         ∧ 2 < i st' ∧ i st' ≤ 7.
Proof.
  exact (proj1 (proj2 (remove_comments_swift_total (chars "/* open")))
           (config (InBlockComment 1) 2 []) ltac:(vm_compute; lia)).
Defined.

(** ** Subsequence *)

(** C10.  The output is a subsequence of the input: its characters are
    characters of the input, each used at most once and in their order.
    So it is never longer than the input, and the empty input gives the
    empty output. *)
Theorem output_is_subsequence (source : list ascii) :
  (∃ result, remove_comments_swift source = Some result
             ∧ result `sublist_of` source
             ∧ length result ≤ length source)
  ∧ remove_comments_swift [] = Some [].
Proof.
  split; [|done].
  exists (scan Code source). split_and!.
  - apply remove_comments_swift_scan.
  - apply scan_sublist.
  - apply sublist_length, scan_sublist.
Qed.

(** ** Block comments *)

Lemma close_block_code (d : positive) : close_block d = Code ↔ d = 1%positive.
Proof. unfold close_block. by case_bool_decide. Qed.

(** C3.  In the block comment state nothing is appended; an opening
    delimiter raises the depth by one, a closing delimiter lowers it by one,
    any other character leaves it; the code state comes back exactly when
    the depth falls from one to zero.  On the nested example the first
    closing delimiter leaves the scan inside the comment at depth one, and
    the whole text is removed. *)
Theorem block_comment_nesting :
  (∀ source p out d,
     step source (config (InBlockComment d) p out) =
       Some (if startswith source block_open p
             then config (InBlockComment (Pos.succ d)) (p + 2) out
             else if startswith source block_close p
             then config (close_block d) (p + 2) out
             else config (InBlockComment d) (p + 1) out))
  ∧ (∀ d, (close_block d = Code ↔ d = 1%positive)
          ∧ depth_of (close_block d) = (Z.pos d - 1)%Z
          ∧ depth_of (InBlockComment (Pos.succ d)) = (Z.pos d + 1)%Z)
  ∧ iterate 17 (chars "/* outer /* inner */ still outer */") initial
    = Some (config (InBlockComment 1) 20 [])
  ∧ remove_comments_swift (chars "/* outer /* inner */ still outer */")
    = Some [].
Proof.
  split_and!; [| |done|done].
  - intros source p out d. unfold step. simpl.
    destruct (startswith source block_open p); [same_locals|].
    destruct (startswith source block_close p); [|same_locals].
    destruct (close_block_flags d) as (? & ? & ?).
    unfold config, advance, set_depth; simpl. rewrite close_block_depth.
    by rewrite !bool_decide_eq_false_2 by done.
  - intros d. split_and!; [apply close_block_code|apply close_block_depth|].
    simpl. lia.
Qed.

(** ** Order of the checks in the code state *)

(** C8.  In the code state the triple quote is looked for first, then the
    double quote, then the line comment opener, then the block comment
    opener.  A position that starts with three double quotes opens a
    triple-quoted literal; and an iteration that ends in a comment state
    has seen both string checks fail. *)
Theorem code_state_check_order (source : list ascii) (p : nat) out :
  p < length source →
  (startswith source triple_quote p = true →
     step source (config Code p out)
     = Some (config InMultilineString (p + 3) (out ++ [triple_quote])))
  ∧ (startswith source triple_quote p = false →
     source !! p = Some dquote →
     step source (config Code p out)
     = Some (config InString (p + 1) (out ++ [[dquote]])))
  ∧ (startswith source triple_quote p = false →
     source !! p ≠ Some dquote →
     startswith source line_open p = true →
     step source (config Code p out)
     = Some (config InLineComment (p + 2) out))
  ∧ (startswith source triple_quote p = false →
     source !! p ≠ Some dquote →
     startswith source line_open p = false →
     startswith source block_open p = true →
     step source (config Code p out)
     = Some (config (InBlockComment 1) (p + 2) out))
  ∧ (∀ c, startswith source triple_quote p = false →
     source !! p = Some c → c ≠ dquote →
     startswith source line_open p = false →
     startswith source block_open p = false →
     step source (config Code p out)
     = Some (config Code (p + 1) (out ++ [[c]])))
  ∧ (∀ st', step source (config Code p out) = Some st' →
     in_line_comment st' = true ∨ (0 < block_comment_depth st')%Z →
     startswith source triple_quote p = false ∧ source !! p ≠ Some dquote).
Proof.
  intros Hp. rewrite step_config by done. unfold startswith.
  destruct (drop p source) as [|c r1] eqn:Hd.
  { apply (f_equal length) in Hd. rewrite length_drop in Hd. simpl in Hd. lia. }
  destruct (drop_cons_inv _ _ _ _ Hd) as (Hc & _ & _). rewrite Hc.
  unfold transition. cbv zeta.
  split_and!.
  - by intros ->.
  - intros -> [= ->]. by char_consts.
  - intros -> Hq ->. char_case c dquote; [done|]. by rewrite app_nil_r.
  - intros -> Hq -> ->. char_case c dquote; [done|]. by rewrite app_nil_r.
  - intros c0 -> [= <-] Hq -> ->. char_case c dquote; done.
  - intros st'.
    destruct (is_prefix triple_quote (c :: r1)).
    { intros [= <-]. simpl. intros [?|?]; [done|lia]. }
    char_case c dquote.
    { intros [= <-]. simpl. intros [?|?]; [done|lia]. }
    intros _ _. split; [done|]. intros [= ->]. by char_consts.
Qed.

Lemma code_state_check_order_witness :
  step (triple_quote ++ chars "//") (config Code 0 [])
  = Some (config InMultilineString 3 [triple_quote]).
Proof.
  exact (proj1 (code_state_check_order (triple_quote ++ chars "//") 0 []
                  ltac:(vm_compute; lia)) eq_refl).
Defined.

(** ** A backslash before three double quotes *)

(** C1, as claimed, fails.  In the text made of three double quotes, the
    letter a, a backslash, three double quotes and two slashes with an x,
    the scan is inside the triple-quoted literal at the backslash, cursor
    4.  No number of iterations from there leaves it in the code state
    just after the three quotes, at cursor 8: the literal stays open and
    the whole text, the two slashes and the x included, comes out. *)
Lemma escaped_delimiter_counterexample :
  let source := triple_quote ++ chars "a" ++ [bslash] ++ triple_quote ++ chars "//x" in
  let inside := config InMultilineString 4 [triple_quote; chars "a"] in
  iterate 2 source initial = Some inside
  ∧ startswith source (bslash :: triple_quote) 4 = true
  ∧ ¬ (∃ k out', iterate k source inside = Some (config Code 8 out'))
  ∧ remove_comments_swift source = Some source.
Proof.
  intros source inside. split_and!; [done|done| |done].
  intros (k & out' & Hk).
  destruct (decide (k < 4)) as [Hlt|Hge].
  - destruct k as [|[|[|[|k]]]]; [by vm_compute in Hk.. | lia].
  - replace k with (4 + (k - 4)) in Hk by lia.
    rewrite iterate_add in Hk.
    destruct (iterate 4 source inside) as [st4|] eqn:H4; [|done].
    simpl in Hk. apply iterate_cursor_mono in Hk.
    vm_compute in H4. injection H4 as <-. simpl in Hk. lia.
Qed.

(** C1, amended.  Inside a triple-quoted literal, at a backslash that is
    followed by three double quotes, one iteration appends the backslash
    and the first of the quotes, moves past both and stays inside the
    literal.  The two quotes that are left close the literal only when a
    third double quote follows them; otherwise the next iteration appends
    one of them and the literal is still open. *)
Theorem escaped_delimiter_first_quote_consumed (source : list ascii) (p : nat) out :
  startswith source (bslash :: triple_quote) p = true →
  step source (config InMultilineString p out)
  = Some (config InMultilineString (p + 2) (out ++ [[bslash]; [dquote]]))
  ∧ (startswith source triple_quote (p + 2) = false →
     iterate 2 source (config InMultilineString p out)
     = Some (config InMultilineString (p + 3)
               (out ++ [[bslash]; [dquote]; [dquote]])))
  ∧ (startswith source triple_quote (p + 2) = true →
     iterate 2 source (config InMultilineString p out)
     = Some (config Code (p + 5) (out ++ [[bslash]; [dquote]; triple_quote]))).
Proof.
  unfold startswith at 1. intros [r4 Hd]%is_prefix_spec.
  assert (length source - p = 4 + length r4) as Hlen.
  { apply (f_equal length) in Hd. by rewrite length_drop in Hd. }
  assert (drop (p + 2) source = dquote :: dquote :: r4) as Hd2.
  { by rewrite <- drop_drop, Hd. }
  assert (step source (config InMultilineString p out)
          = Some (config InMultilineString (p + 2) (out ++ [[bslash]; [dquote]])))
    as Hstep.
  { rewrite step_config by lia. rewrite Hd. unfold transition.
    assert (is_prefix triple_quote ((bslash :: triple_quote) ++ r4) = false)
      as -> by (by apply is_prefix_other).
    by char_consts. }
  split_and!; [done|..]; unfold startswith; rewrite Hd2; intros H3;
    cbn [iterate]; simpl i; rewrite bool_decide_eq_true_2 by lia;
    rewrite Hstep; simpl mbind; simpl i;
    rewrite bool_decide_eq_true_2 by lia;
    rewrite step_config by lia; rewrite Hd2; unfold transition; rewrite H3;
    char_consts; simpl; same_locals.
Qed.

Lemma escaped_delimiter_first_quote_consumed_witness :
  step (triple_quote ++ chars "a" ++ [bslash] ++ triple_quote ++ chars "//x")
       (config InMultilineString 4 [triple_quote; chars "a"])
  = Some (config InMultilineString 6
            [triple_quote; chars "a"; [bslash]; [dquote]]).
Proof.
  exact (proj1 (escaped_delimiter_first_quote_consumed
                  (triple_quote ++ chars "a" ++ [bslash] ++ triple_quote ++ chars "//x")
                  4 [triple_quote; chars "a"] eq_refl)).
Defined.

(** ** Scanning twice *)




(** ** Line comments *)

(** C6.  A line comment met in the code state, whatever stands before it:
    the two slashes and the body up to the newline are dropped, the newline
    is appended, and the scan is back in the code state just after the
    newline.  A line comment that reaches the end of the text is dropped
    whole.  On the example the text after the newline is kept. *)
Theorem line_comment_dropped (pre body rest : list ascii) out :
  no_newline body = true →
  iterate (length body + 2) (pre ++ line_open ++ body ++ newline :: rest)
          (config Code (length pre) out)
  = Some (config Code (length pre + length body + 3) (out ++ [[newline]]))
  ∧ iterate (length body + 1) (pre ++ line_open ++ body)
            (config Code (length pre) out)
    = Some (config InLineComment (length pre + length body + 2) out)
  ∧ remove_comments_swift (chars "a //comment" ++ [newline] ++ chars "b")
    = Some (chars "a " ++ [newline] ++ chars "b").
Proof.
  intros Hnl. split_and!; [| |done].
  - rewrite iterate_config by (rewrite length_app; lia).
    rewrite drop_app_length. cbv zeta. f_equal.
    replace (length body + 2) with (S (length body + 1)) by lia.
    change (line_open ++ body ++ newline :: rest)
      with (slash :: slash :: body ++ newline :: rest).
    rewrite moves_S. unfold transition, triple_quote, line_open.
    prefix_simpl. char_consts. cbv zeta. cbn [andb next consumed emitted].
    change (drop 2 (slash :: slash :: ?t)) with t.
    rewrite line_comment_moves by done. simpl. f_equal. lia.
  - rewrite iterate_config by (rewrite length_app; lia).
    rewrite drop_app_length. cbv zeta. f_equal.
    replace (length body + 1) with (S (length body)) by lia.
    change (line_open ++ body) with (slash :: slash :: body).
    rewrite moves_S. unfold transition, triple_quote, line_open.
    prefix_simpl. char_consts. cbv zeta. cbn [andb next consumed emitted].
    change (drop 2 (slash :: slash :: ?t)) with t.
    rewrite line_comment_moves_end by done. simpl.
    rewrite app_nil_r. f_equal. lia.
Qed.

Lemma line_comment_dropped_witness :
  iterate 9 (chars "a " ++ line_open ++ chars "comment" ++ newline :: chars "b")
          (config Code 2 [chars "a"; chars " "])
  = Some (config Code 12 [chars "a"; chars " "; [newline]]).
Proof.
  exact (proj1 (line_comment_dropped (chars "a ") (chars "comment") (chars "b")
                  [chars "a"; chars " "] eq_refl)).
Defined.

(** ** Single-line literals *)

(** C4.  A single-line literal met in the code state, whatever stands
    before it: the opening quote, the body and the closing quote are
    copied as they are, and the scan is back in the code state just after
    the closing quote.  Inside the literal a backslash is appended
    together with the character after it, when there is one, and the
    cursor moves past both, so an escaped quote does not close the
    literal; the example text is returned unchanged. *)
Theorem string_literal_verbatim (pre body rest : list ascii) out :
  string_body body = true →
  is_prefix triple_quote (dquote :: body ++ dquote :: rest) = false →
  (∃ k out',
     iterate k (pre ++ dquote :: body ++ dquote :: rest)
             (config Code (length pre) out)
     = Some (config Code (length pre + length body + 2) out')
     ∧ join out' = join out ++ dquote :: body ++ [dquote])
  ∧ (∀ source p pieces, source !! p = Some bslash →
     step source (config InString p pieces)
     = Some (match source !! (p + 1) with
             | Some c' => config InString (p + 2) (pieces ++ [[bslash]; [c']])
             | None => config InString (p + 1) (pieces ++ [[bslash]])
             end))
  ∧ remove_comments_swift
      (chars "x = " ++ [dquote] ++ chars "a" ++ [bslash; dquote] ++ chars "b" ++ [dquote])
    = Some (chars "x = " ++ [dquote] ++ chars "a" ++ [bslash; dquote] ++ chars "b" ++ [dquote]).
Proof.
  intros Hbody H3. split_and!; [| |done].
  - destruct (string_moves body rest Hbody) as (k & pieces & Hk & Hj).
    exists (S k), (out ++ [[dquote]] ++ pieces). split.
    + rewrite iterate_config by (rewrite length_app; lia).
      rewrite drop_app_length. cbv zeta. f_equal.
      rewrite moves_S. unfold transition. rewrite H3. char_consts.
      cbv zeta. cbn [next consumed emitted].
      change (drop 1 (dquote :: ?t)) with t.
      rewrite Hk. simpl. f_equal. lia.
    + unfold join in *. rewrite !concat_app, Hj. done.
  - intros source p pieces Hc.
    pose proof (lookup_lt_Some _ _ _ Hc) as Hp.
    rewrite step_config by done.
    destruct (drop p source) as [|c r1] eqn:Hd.
    { apply (f_equal length) in Hd. rewrite length_drop in Hd. simpl in Hd. lia. }
    destruct (drop_cons_inv _ _ _ _ Hd) as (Hc' & Hr1 & _).
    rewrite Hc in Hc'. injection Hc' as <-.
    rewrite (lookup_drop_head source (p + 1)), Hr1.
    unfold transition. char_consts. by destruct r1.
Qed.

Lemma string_literal_verbatim_witness :
  ∃ k out',
    iterate k (chars "x = " ++ dquote :: chars "http://a /* b */" ++ dquote :: chars " // c")
            (config Code 4 [chars "x = "])
    = Some (config Code 22 out')
    ∧ join out' = join [chars "x = "] ++ dquote :: chars "http://a /* b */" ++ [dquote].
Proof.
  exact (proj1 (string_literal_verbatim (chars "x = ") (chars "http://a /* b */")
                  (chars " // c") [chars "x = "] eq_refl eq_refl)).
Defined.

(** ** Triple-quoted literals *)

(** C5.  A triple-quoted literal met in the code state, whatever stands
    before it: the three opening quotes, the body and the three closing
    quotes are copied as they are, and the scan is back in the code state
    just after the literal.  On the example the body spans two lines and
    holds both comment openers; it is kept, and only the line comment
    after the literal is removed. *)
Theorem multiline_literal_verbatim (pre body rest : list ascii) out :
  multiline_body body = true →
  (∃ k out',
     iterate k (pre ++ triple_quote ++ body ++ triple_quote ++ rest)
             (config Code (length pre) out)
     = Some (config Code (length pre + length body + 6) out')
     ∧ join out' = join out ++ triple_quote ++ body ++ triple_quote)
  ∧ remove_comments_swift
      (triple_quote ++ chars " // a" ++ [newline] ++ chars " /* b */ "
       ++ triple_quote ++ chars " // c")
    = Some (triple_quote ++ chars " // a" ++ [newline] ++ chars " /* b */ "
            ++ triple_quote ++ chars " ").
Proof.
  intros Hbody. split; [|done].
  destruct (multiline_moves body rest Hbody) as (k & pieces & Hk & Hj).
  exists (S k), (out ++ [triple_quote] ++ pieces). split.
  - rewrite iterate_config by (rewrite length_app; lia).
    rewrite drop_app_length. cbv zeta. f_equal.
    change (triple_quote ++ body ++ triple_quote ++ rest)
      with (dquote :: dquote :: dquote :: body ++ triple_quote ++ rest).
    rewrite moves_S. unfold transition.
    assert (is_prefix triple_quote
              (dquote :: dquote :: dquote :: body ++ triple_quote ++ rest) = true)
      as -> by (apply (is_prefix_app triple_quote)).
    cbv zeta. cbn [next consumed emitted].
    change (drop 3 (dquote :: dquote :: dquote :: ?t)) with t.
    rewrite Hk. simpl. f_equal. lia.
  - unfold join in *. rewrite !concat_app, Hj. done.
Qed.

Lemma multiline_literal_verbatim_witness :
  ∃ k out',
    iterate k (chars "x = " ++ triple_quote
               ++ (chars " // a" ++ [newline] ++ chars " /* b */ ")
               ++ triple_quote ++ chars " // c")
            (config Code 4 [chars "x = "])
    = Some (config Code 25 out')
    ∧ join out' = join [chars "x = "] ++ triple_quote
                  ++ (chars " // a" ++ [newline] ++ chars " /* b */ ")
                  ++ triple_quote.
Proof.
  exact (proj1 (multiline_literal_verbatim (chars "x = ")
                  (chars " // a" ++ [newline] ++ chars " /* b */ ")
                  (chars " // c") [chars "x = "] eq_refl)).
Defined.

(** ** The per-file workflow *)

Lemma read_file_Some (path : string) (w : world) f content :
  read_file path w = Some (f, content)
  ↔ inode w !! path = Some f ∧ texts w !! f = Some content.
Proof.
  unfold read_file. split.
  - destruct (inode w !! path) as [g|]; simpl; [|done].
    destruct (texts w !! g) as [c|] eqn:Hc; simpl; [|done].
    by intros [= -> ->].
  - intros [-> Hc]. simpl. by rewrite Hc.
Qed.

(** The four ways a call of [process_file] can go. *)
Lemma process_file_cases (path : string) (w : world) :
  (read_file path w = None ∧ process_file path w = Raised ReadFailed w)
  ∨ ∃ f content new_content,
      read_file path w = Some (f, content)
      ∧ remove_comments_swift content = Some new_content
      ∧ new_content `sublist_of` content
      ∧ ((new_content = content
          ∧ process_file path w
            = Done (print ("No comments found in " +:+ path)%string w))
         ∨ (new_content ≠ content ∧ f ∈ read_only w
            ∧ process_file path w
              = Raised WriteFailed (print ("Cleaning " +:+ path)%string w))
         ∨ (new_content ≠ content ∧ (f ∉ read_only w)
            ∧ process_file path w
              = Done (World (inode w) (<[f := new_content]> (texts w))
                        (read_only w)
                        (trace w ++ [Print ("Cleaning " +:+ path)%string;
                                     Write path new_content])))).
Proof.
  unfold process_file.
  destruct (read_file path w) as [[f content]|]; [right|by left].
  exists f, content, (scan Code content).
  rewrite remove_comments_swift_scan.
  split_and!; [done|done|apply scan_sublist|].
  case_bool_decide as Hneq; [|by left].
  right. cbv zeta. simpl read_only.
  case_bool_decide as Hro; [by left|right].
  split_and!; [done|done|]. simpl. by rewrite <- app_assoc.
Qed.



(** * Further properties of the scanner *)

Lemma moves_add (k k' : nat) (m : mode) (r : list ascii) :
  moves (k + k') m r =
    let mv := moves k m r in
    let mv' := moves k' (next mv) (drop (consumed mv) r) in
    Move (emitted mv ++ emitted mv') (next mv') (consumed mv + consumed mv').
Proof.
  revert m r. induction k as [|k IH]; intros m r.
  - cbn [Nat.add moves]. cbv zeta. cbn [emitted next consumed app Nat.add].
    rewrite drop_0. by destruct (moves k' m r).
  - destruct r as [|c r1].
    + rewrite !moves_nil. cbv zeta. cbn [emitted next consumed].
      change (drop 0 []) with (@nil ascii). by rewrite moves_nil.
    + cbn [Nat.add]. rewrite !moves_S. cbv zeta. cbn [emitted next consumed].
      rewrite IH. cbv zeta. cbn [emitted next consumed].
      rewrite drop_drop, <- !app_assoc. f_equal. lia.
Qed.

(** What a run has appended is a subsequence of what it has consumed. *)
Lemma moves_sublist (k : nat) (m : mode) (r : list ascii) :
  consumed (moves k m r) ≤ length r
  ∧ join (emitted (moves k m r)) `sublist_of` take (consumed (moves k m r)) r.
Proof.
  revert m r. induction k as [|k IH]; intros m r.
  - simpl. split; [lia|]. by rewrite take_0.
  - destruct r as [|c r1]; [rewrite moves_nil; simpl; split; [lia|done]|].
    rewrite moves_S. cbv zeta. cbn [emitted next consumed].
    pose proof (transition_consumed m (c :: r1) ltac:(done)) as Hc.
    pose proof (transition_emitted m (c :: r1)) as Hem.
    generalize dependent (transition m (c :: r1)). intros mv Hc Hem.
    destruct (IH (next mv) (drop (consumed mv) (c :: r1))) as [Hlen Hsub].
    rewrite length_drop in Hlen. split; [lia|].
    unfold join in *. rewrite concat_app.
    rewrite <- (take_drop (consumed mv) (take _ (c :: r1))).
    rewrite take_take, Nat.min_l by lia.
    rewrite skipn_firstn_comm.
    replace (consumed mv + consumed (moves k (next mv) (drop (consumed mv) (c :: r1)))
             - consumed mv)
      with (consumed (moves k (next mv) (drop (consumed mv) (c :: r1)))) by lia.
    apply sublist_app; [|done].
    destruct Hem as [-> | ->]; [apply sublist_nil_l | done].
Qed.

(** X1.  After any number of iterations from the start the local
    variables are in one of the five lexical states: at most one flag is
    on, the depth is positive only with all flags off, and it is never
    negative.  The cursor is within the text, and what has been appended is
    a subsequence of the part of the text that has been read. *)
Theorem reachable_locals (source : list ascii) (k : nat) :
  ∃ m p out,
    iterate k source initial = Some (config m p out)
    ∧ p ≤ length source
    ∧ join out `sublist_of` take p source.
Proof.
  change initial with (config Code 0 []).
  rewrite iterate_config by lia. cbv zeta. rewrite drop_0.
  destruct (moves_sublist k Code source) as [Hlen Hsub].
  eexists _, _, _. split; [done|]. split; [simpl; lia|]. done.
Qed.

(** X2.  The output is only ever appended to: what the loop has appended
    after any number of iterations is a prefix of the string the function
    returns. *)
Theorem output_append_only (source : list ascii) (k : nat) :
  ∃ st result,
    iterate k source initial = Some st
    ∧ remove_comments_swift source = Some result
    ∧ join (output st) `prefix_of` result.
Proof.
  change initial with (config Code 0 []).
  rewrite iterate_config by lia. cbv zeta. rewrite drop_0.
  eexists _, _. split; [done|]. split; [apply remove_comments_swift_scan|].
  unfold scan. rewrite (moves_enough (length source) (k + length source))
    by lia.
  rewrite moves_add. cbv zeta. cbn [emitted output config app].
  unfold join. rewrite concat_app. by apply prefix_app_r.
Qed.

Lemma sublist_same_length (l1 l2 : list ascii) :
  l1 `sublist_of` l2 → length l2 ≤ length l1 → l1 = l2.
Proof.
  induction 1 as [|x l1 l2 Hsub IH|x l1 l2 Hsub IH]; intros Hlen; [done| |].
  - simpl in Hlen. f_equal. apply IH. lia.
  - apply sublist_length in Hsub. simpl in Hlen. lia.
Qed.

(** X3.  The function either returns the text as it is or a strictly
    shorter one: it never returns a different text of the same length. *)
Theorem output_same_or_shorter (source : list ascii) :
  ∃ result,
    remove_comments_swift source = Some result
    ∧ (result = source ∨ length result < length source).
Proof.
  exists (scan Code source). split; [apply remove_comments_swift_scan|].
  pose proof (scan_sublist Code source) as Hsub.
  destruct (decide (length source ≤ length (scan Code source))) as [Hle|Hgt].
  - left. by apply sublist_same_length.
  - right. lia.
Qed.

(** ** Line counts *)

Lemma line_breaks_app (a b : list ascii) :
  line_breaks (a ++ b) = line_breaks a + line_breaks b.
Proof. unfold line_breaks. by rewrite filter_app, length_app. Qed.

Lemma line_breaks_cons (c : ascii) (l : list ascii) :
  line_breaks (c :: l) = (if Ascii.eqb c newline then 1 else 0) + line_breaks l.
Proof.
  unfold line_breaks. rewrite filter_cons.
  char_case c newline.
  - by rewrite decide_True.
  - apply Ascii.eqb_neq in E. by rewrite decide_False.
Qed.

Lemma line_breaks_take_prefix (pat r : list ascii) :
  is_prefix pat r = true →
  line_breaks (take (length pat) r) = line_breaks pat.
Proof. intros H. by rewrite is_prefix_take. Qed.

(** Outside block comments a move appends as many newlines as it
    consumes, and it enters a block comment only at its opening. *)
Lemma transition_line_breaks (m : mode) (r : list ascii) :
  (∀ d, m ≠ InBlockComment d) →
  is_prefix block_open r = false →
  line_breaks (join (emitted (transition m r)))
  = line_breaks (take (consumed (transition m r)) r)
  ∧ ∀ d, next (transition m r) ≠ InBlockComment d.
Proof.
  intros Hm Hb. destruct r as [|c r1]; [by destruct m|].
  unfold transition. destruct m as [| | | |d]; [| | | |by destruct (Hm d)].
  - rewrite Hb.
    destruct (is_prefix triple_quote (c :: r1)) eqn:E3.
    { split; [|done]. symmetry.
      exact (line_breaks_take_prefix triple_quote _ E3). }
    char_case c dquote; [done|].
    destruct (is_prefix line_open (c :: r1)) eqn:E2; [|done].
    split; [|done]. symmetry.
    exact (line_breaks_take_prefix line_open _ E2).
  - char_case c bslash.
    { split; [by rewrite escape_move_emitted|]. by destruct r1. }
    by char_case c dquote.
  - destruct (is_prefix triple_quote (c :: r1)) eqn:E3.
    { split; [|done]. symmetry.
      exact (line_breaks_take_prefix triple_quote _ E3). }
    char_case c bslash; [|done].
    split; [by rewrite escape_move_emitted|]. by destruct r1.
  - char_case c newline; [done|].
    split; [|done]. simpl. rewrite take_0, line_breaks_cons, E. done.
Qed.

Lemma scan_line_breaks (m : mode) (r : list ascii) :
  (∀ d, m ≠ InBlockComment d) →
  occurs block_open r = false →
  line_breaks (scan m r) = line_breaks r.
Proof.
  remember (length r) as n eqn:Hn. revert m r Hn.
  induction n as [n IH] using lt_wf_ind. intros m r -> Hm Hocc.
  destruct r as [|c r1]; [done|].
  rewrite scan_unfold.
  pose proof (occurs_cons _ _ _ Hocc) as [Hhere _].
  pose proof (transition_consumed m (c :: r1) ltac:(done)) as Hc.
  destruct (transition_line_breaks m (c :: r1) Hm Hhere) as [Hnl Hnext].
  generalize dependent (transition m (c :: r1)). intros mv Hc Hnl Hnext.
  rewrite <- (take_drop (consumed mv) (c :: r1)) at 2.
  rewrite !line_breaks_app, Hnl. f_equal.
  eapply IH; [|done|done|by apply occurs_drop].
  rewrite length_drop. simpl in *. lia.
Qed.

(** X4.  A text in which a slash is nowhere followed by a star keeps its
    number of lines: the output has as many newline characters as the
    input. *)
Theorem line_count_kept (source : list ascii) :
  occurs block_open source = false →
  ∃ result,
    remove_comments_swift source = Some result
    ∧ line_breaks result = line_breaks source.
Proof.
  intros Hocc. exists (scan Code source).
  split; [apply remove_comments_swift_scan|].
  by apply scan_line_breaks.
Qed.

Lemma line_count_kept_witness :
  ∃ result,
    remove_comments_swift
      (chars "a // b" ++ [newline] ++ chars "c // d" ++ [newline]) = Some result
    ∧ line_breaks result
      = line_breaks (chars "a // b" ++ [newline] ++ chars "c // d" ++ [newline]).
Proof.
  exact (line_count_kept
           (chars "a // b" ++ [newline] ++ chars "c // d" ++ [newline]) eq_refl).
Defined.

(** ** Texts without double quotes *)

Lemma scan_no_opener (k : ascii) (m : mode) (r : list ascii) :
  k = slash ∨ k = star →
  m ≠ InString → m ≠ InMultilineString →
  occurs [dquote] r = false →
  occurs [slash; k] (scan m r) = false.
Proof.
  intros Hk.
  remember (length r) as n eqn:Hn. revert m r Hn.
  induction n as [n IH] using lt_wf_ind. intros m r -> Hs Hml Hocc.
  destruct r as [|c r1]; [done|].
  assert (∀ m' j, 1 ≤ j → m' ≠ InString → m' ≠ InMultilineString →
            occurs [slash; k] (scan m' (drop j (c :: r1))) = false) as IHk.
  { intros m' j Hj ??. eapply IH; [|done|done|done|by apply occurs_drop].
    rewrite length_drop. simpl. lia. }
  pose proof (IHk Code 1 ltac:(lia) ltac:(done) ltac:(done)) as IHcode.
  change (drop 1 (c :: r1)) with r1 in IHcode.
  apply occurs_cons in Hocc as [Hq Hocc].
  rewrite is_prefix_cons, is_prefix_nil_l, andb_true_r in Hq.
  destruct m as [| | | |d]; [| done | done | |].
  - rewrite scan_code.
    assert (is_prefix triple_quote (c :: r1) = false) as ->
      by (by apply is_prefix_other).
    rewrite Hq.
    destruct (is_prefix line_open (c :: r1)) eqn:E2; [apply IHk; [lia|done|done]|].
    destruct (is_prefix block_open (c :: r1)) eqn:E2'; [apply IHk; [lia|done|done]|].
    cbn [occurs]. rewrite IHcode, orb_false_r, is_prefix_cons.
    char_case c slash; [|done].
    unfold line_open, block_open in *. prefix_simpl. char_consts. simpl in *.
    apply scan_code_after_slash; [done|]. by destruct Hk as [-> | ->].
  - rewrite scan_line_comment.
    char_case c newline; [|apply (IHk InLineComment 1); [lia|done|done]].
    cbn [occurs]. rewrite IHcode, orb_false_r. by apply is_prefix_other.
  - rewrite scan_block_comment.
    destruct (is_prefix block_open (c :: r1)); [apply IHk; [lia|done|done]|].
    destruct (is_prefix block_close (c :: r1)); [|apply (IHk _ 1); [lia|done|done]].
    apply IHk; [lia| |]; unfold close_block; by case_bool_decide.
Qed.

(** X5.  From a text without any double quote every comment is gone: the
    output holds neither two slashes in a row nor a slash followed by a
    star. *)
Theorem no_comment_left (source : list ascii) :
  occurs [dquote] source = false →
  ∃ result,
    remove_comments_swift source = Some result
    ∧ occurs line_open result = false
    ∧ occurs block_open result = false.
Proof.
  intros Hocc. exists (scan Code source).
  split; [apply remove_comments_swift_scan|].
  split; by apply scan_no_opener; eauto.
Qed.

Lemma no_comment_left_witness :
  ∃ result,
    remove_comments_swift (chars "a / /* b */ / c /* d */* e // f") = Some result
    ∧ occurs line_open result = false
    ∧ occurs block_open result = false.
Proof.
  exact (no_comment_left (chars "a / /* b */ / c /* d */* e // f") eq_refl).
Defined.

(** ** Block comments and literals left open *)

Lemma block_moves (body rest : list ascii) (d : positive) :
  block_body body = true →
  moves (length body + 1) (InBlockComment d) (body ++ block_close ++ rest)
  = Move [] (close_block d) (length body + 2).
Proof.
  induction body as [|c body IH]; intros Hbody.
  - change ([] ++ block_close ++ rest) with (star :: slash :: rest).
    cbn [length Nat.add]. rewrite moves_S. unfold transition, block_open, block_close.
    prefix_simpl. by char_consts.
  - cbn [block_body] in Hbody.
    apply andb_true_iff in Hbody as [Hbody Hrest].
    apply andb_true_iff in Hbody as [Ho Hc].
    apply negb_true_iff in Ho, Hc.
    assert (is_prefix block_open ((c :: body) ++ block_close ++ rest) = false)
      as Ho'.
    { rewrite app_assoc, is_prefix_app_l; [done|].
      rewrite length_app. simpl. lia. }
    assert (is_prefix block_close ((c :: body) ++ block_close ++ rest) = false)
      as Hc'.
    { rewrite app_assoc, is_prefix_app_l; [done|].
      rewrite length_app. simpl. lia. }
    cbn [app length Nat.add] in *. rewrite moves_S. unfold transition.
    rewrite Ho', Hc'. cbv zeta. cbn [next consumed emitted].
    change (drop 1 (c :: ?t)) with t. rewrite (IH Hrest).
    cbn [next consumed emitted app]. f_equal.
Qed.

(** X6.  A block comment that does not nest, met in the code state,
    whatever stands before and after it: the two delimiters and the body
    are dropped, nothing is appended, and the scan is back in the code
    state just after the closing delimiter. *)
Theorem block_comment_dropped (pre body rest : list ascii) out :
  block_body body = true →
  iterate (length body + 2) (pre ++ block_open ++ body ++ block_close ++ rest)
          (config Code (length pre) out)
  = Some (config Code (length pre + length body + 4) out).
Proof.
  intros Hbody.
  rewrite iterate_config by (rewrite length_app; lia).
  rewrite drop_app_length. cbv zeta. f_equal.
  replace (length body + 2) with (S (length body + 1)) by lia.
  change (block_open ++ body ++ block_close ++ rest)
    with (slash :: star :: body ++ block_close ++ rest).
  rewrite moves_S. unfold transition, triple_quote, line_open, block_open.
  prefix_simpl. char_consts. cbv zeta. cbn [andb next consumed emitted].
  change (drop 2 (slash :: star :: ?t)) with t.
  rewrite block_moves by done. simpl. rewrite app_nil_r. f_equal. lia.
Qed.

Lemma block_comment_dropped_witness :
  iterate 5 (chars "a " ++ block_open ++ chars " c " ++ block_close ++ chars " b")
          (config Code 2 [chars "a"; chars " "])
  = Some (config Code 9 [chars "a"; chars " "]).
Proof.
  exact (block_comment_dropped (chars "a ") (chars " c ") (chars " b")
           [chars "a"; chars " "] eq_refl).
Defined.

Lemma block_moves_open (k : nat) (d : positive) (r : list ascii) :
  occurs block_close r = false →
  emitted (moves k (InBlockComment d) r) = []
  ∧ ∃ d', next (moves k (InBlockComment d) r) = InBlockComment d'.
Proof.
  revert d r. induction k as [|k IH]; intros d r Hocc; [simpl; eauto|].
  destruct r as [|c r1]; [simpl; eauto|].
  rewrite moves_S. cbv zeta. cbn [emitted next].
  pose proof (occurs_cons _ _ _ Hocc) as [Hhere _].
  unfold transition. rewrite Hhere.
  destruct (is_prefix block_open (c :: r1)); cbn [emitted next consumed app];
    apply IH; by apply occurs_drop.
Qed.

(** X7.  A block comment that is never closed swallows the rest of the
    text: when no star followed by a slash occurs after the opening
    delimiter, no iteration from there on appends anything, and the scan
    stays in the block comment state. *)
Theorem unclosed_block_comment (pre rest : list ascii) out (k : nat) :
  occurs block_close rest = false →
  ∃ d p,
    iterate (S k) (pre ++ block_open ++ rest) (config Code (length pre) out)
    = Some (config (InBlockComment d) p out).
Proof.
  intros Hocc.
  rewrite iterate_config by (rewrite length_app; lia).
  rewrite drop_app_length. cbv zeta.
  change (block_open ++ rest) with (slash :: star :: rest).
  rewrite moves_S. unfold transition, triple_quote, line_open, block_open.
  prefix_simpl. char_consts. cbv zeta. cbn [andb next consumed emitted].
  change (drop 2 (slash :: star :: ?t)) with t.
  destruct (block_moves_open k 1 rest Hocc) as [-> [d' ->]].
  eexists _, _. by rewrite app_nil_r.
Qed.

Lemma unclosed_block_comment_witness :
  ∃ d p,
    iterate 4 (chars "a" ++ block_open ++ chars " /* b") (config Code 1 [chars "a"])
    = Some (config (InBlockComment d) p [chars "a"]).
Proof.
  exact (unclosed_block_comment (chars "a") (chars " /* b") [chars "a"] 3 eq_refl).
Defined.

Lemma string_moves_open (body : list ascii) :
  string_body body = true →
  ∃ k pieces,
    moves k InString body = Move pieces InString (length body)
    ∧ join pieces = body.
Proof.
  remember (length body) as n eqn:Hn. revert body Hn.
  induction n as [n IH] using lt_wf_ind. intros body -> Hbody.
  destruct body as [|c b1]; [by exists 0, []|].
  cbn [string_body] in Hbody. char_case c bslash.
  - destruct b1 as [|c' b2]; [done|].
    destruct (IH (length b2) ltac:(simpl; lia) b2 eq_refl Hbody)
      as (k & pieces & Hk & Hj).
    exists (S k), ([[bslash]; [c']] ++ pieces). split.
    + rewrite moves_S. unfold transition. char_consts.
      cbv zeta. cbn [escape_move next consumed emitted].
      change (drop 2 (bslash :: c' :: ?t)) with t.
      rewrite Hk. cbn [next consumed emitted length]. f_equal.
    + unfold join in *. rewrite concat_app, Hj. done.
  - apply andb_true_iff in Hbody as [Hq Hbody]. apply negb_true_iff in Hq.
    destruct (IH (length b1) ltac:(simpl; lia) b1 eq_refl Hbody)
      as (k & pieces & Hk & Hj).
    exists (S k), ([[c]] ++ pieces). split.
    + rewrite moves_S. unfold transition. rewrite E, Hq.
      cbv zeta. cbn [next consumed emitted].
      change (drop 1 (c :: ?t)) with t.
      rewrite Hk. cbn [next consumed emitted length]. f_equal.
    + unfold join in *. rewrite concat_app, Hj. done.
Qed.

Lemma string_body_first (body : list ascii) :
  string_body body = true → is_prefix [dquote] body = false.
Proof.
  destruct body as [|c b]; [done|]. cbn [string_body]. prefix_simpl.
  char_case c bslash; [by char_consts|].
  intros [Hq _]%andb_true_iff. apply negb_true_iff in Hq. by rewrite Hq.
Qed.

(** X8.  A single-line literal that is never closed keeps the rest of the
    text: from the opening quote on, a body of plain characters and escape
    pairs that runs to the end of the text is copied as it is, whatever it
    looks like, and the scan ends inside the literal. *)
Theorem unclosed_string_literal (pre body : list ascii) out :
  string_body body = true →
  ∃ k out',
    iterate k (pre ++ dquote :: body) (config Code (length pre) out)
    = Some (config InString (length pre + length body + 1) out')
    ∧ join out' = join out ++ dquote :: body.
Proof.
  intros Hbody.
  destruct (string_moves_open body Hbody) as (k & pieces & Hk & Hj).
  exists (S k), (out ++ [[dquote]] ++ pieces). split.
  - rewrite iterate_config by (rewrite length_app; lia).
    rewrite drop_app_length. cbv zeta. f_equal.
    rewrite moves_S. unfold transition.
    assert (is_prefix triple_quote (dquote :: body) = false) as ->.
    { unfold triple_quote. rewrite is_prefix_cons.
      destruct body as [|c b]; [done|]. rewrite is_prefix_cons.
      apply string_body_first in Hbody.
      rewrite is_prefix_cons, is_prefix_nil_l, andb_true_r in Hbody.
      by rewrite Hbody, andb_false_r. }
    char_consts. cbv zeta. cbn [next consumed emitted].
    change (drop 1 (dquote :: ?t)) with t.
    rewrite Hk. simpl. f_equal. lia.
  - unfold join in *. rewrite !concat_app, Hj. done.
Qed.

Lemma unclosed_string_literal_witness :
  ∃ k out',
    iterate k (chars "x = " ++ dquote :: chars "a // b /* c */")
            (config Code 4 [chars "x = "])
    = Some (config InString 19 out')
    ∧ join out' = join [chars "x = "] ++ dquote :: chars "a // b /* c */".
Proof.
  exact (unclosed_string_literal (chars "x = ") (chars "a // b /* c */")
           [chars "x = "] eq_refl).
Defined.

(** ** Scanning a text in two parts *)

Lemma config_inj (m m' : mode) (p p' : nat) out out' :
  config m p out = config m' p' out' → m = m' ∧ p = p' ∧ out = out'.
Proof.
  unfold config. intros [= -> -> Hs Hml Hlc Hd]. split; [|done].
  destruct m, m'; simpl in *; try done.
  by injection Hd as ->.
Qed.

(** A delimiter holds no newline, so a test for it on a text that ends in
    a newline does not look beyond that newline. *)
Lemma is_prefix_before_newline (pat a0 b : list ascii) :
  no_newline pat = true →
  is_prefix pat ((a0 ++ [newline]) ++ b) = is_prefix pat (a0 ++ [newline]).
Proof.
  revert pat. induction a0 as [|c a0 IH]; intros pat Hpat.
  - destruct pat as [|x pat]; [done|].
    cbn [no_newline forallb] in Hpat. apply andb_true_iff in Hpat as [Hx _].
    apply negb_true_iff in Hx. cbn [app]. rewrite !is_prefix_cons.
    rewrite Ascii.eqb_sym in Hx. by rewrite Hx.
  - destruct pat as [|x pat]; [done|].
    cbn [no_newline forallb] in Hpat. apply andb_true_iff in Hpat as [_ Hpat].
    cbn [app]. rewrite !is_prefix_cons. f_equal. by apply IH.
Qed.

Lemma transition_before_newline (m : mode) (a0 b : list ascii) :
  transition m ((a0 ++ [newline]) ++ b) = transition m (a0 ++ [newline]).
Proof.
  assert (∀ pat, no_newline pat = true →
            is_prefix pat ((a0 ++ [newline]) ++ b)
            = is_prefix pat (a0 ++ [newline])) as Hpre
    by (intros; by apply is_prefix_before_newline).
  pose proof (Hpre triple_quote eq_refl) as H3.
  pose proof (Hpre line_open eq_refl) as H2.
  pose proof (Hpre block_open eq_refl) as H2'.
  pose proof (Hpre block_close eq_refl) as H2''. clear Hpre.
  destruct a0 as [|c a0]; cbn [app] in *; unfold transition;
    rewrite ?H3, ?H2, ?H2', ?H2''; [|by destruct a0].
  destruct m; by char_consts.
Qed.

(** The moves over a text that ends in a newline are the same with and
    without a text after it. *)
Lemma moves_before_newline (m : mode) (a0 b : list ascii) :
  ∃ k, moves k m ((a0 ++ [newline]) ++ b)
       = moves (length (a0 ++ [newline])) m (a0 ++ [newline]).
Proof.
  remember (length a0) as n eqn:Hn. revert m a0 Hn.
  induction n as [n IH] using lt_wf_ind. intros m a0 ->.
  pose proof (transition_before_newline m a0 b) as Htr.
  pose proof (transition_consumed m (a0 ++ [newline])
                ltac:(by destruct a0)) as Hc.
  assert (length (a0 ++ [newline]) = S (length a0)) as Hlen
    by (rewrite length_app; simpl; lia).
  assert (∀ j, j ≤ length a0 →
            drop j (a0 ++ [newline]) = drop j a0 ++ [newline]) as Hdrop
    by (intros; by rewrite drop_app_le).
  destruct (a0 ++ [newline]) as [|c a1] eqn:Ha; [done|].
  rewrite Hlen. cbn [app] in Htr |- *.
  set (mv := transition m (c :: a1)) in *.
  destruct (decide (consumed mv = S (length a0))) as [Hall|Hsome].
  - exists 1. rewrite !moves_S, Htr. fold mv. cbv zeta.
    rewrite (drop_ge (c :: a1)) by lia.
    by rewrite moves_nil.
  - destruct (IH (length (drop (consumed mv) a0)) ltac:(rewrite length_drop; lia)
                 (next mv) (drop (consumed mv) a0) eq_refl)
      as [k Hk].
    exists (S k). rewrite !moves_S, Htr. fold mv. cbv zeta.
    change (c :: a1 ++ b) with ((c :: a1) ++ b).
    rewrite (drop_app_le (c :: a1)) by lia.
    rewrite Hdrop by lia. rewrite Hk.
    rewrite (moves_enough (length a0)
               (length (drop (consumed mv) a0 ++ [newline])));
      [done|rewrite length_app, length_drop; simpl; lia..].
Qed.

(** X9.  A text can be scanned in two parts that are cut after a newline.
    Some number of iterations on the whole text leaves the local variables
    exactly as the scan of the first part alone leaves them; and when the
    scan of the first part ends in the code state, the output for the
    whole text is the output for the first part followed by the output for
    the second. *)
Theorem scan_in_two_parts (a0 b : list ascii) :
  let a := a0 ++ [newline] in
  (∃ k, iterate k (a ++ b) initial = iterate (length a) a initial)
  ∧ (∀ out,
       iterate (length a) a initial = Some (config Code (length a) out) →
       ∃ ra rb,
         remove_comments_swift a = Some ra
         ∧ remove_comments_swift b = Some rb
         ∧ remove_comments_swift (a ++ b) = Some (ra ++ rb)).
Proof.
  intros a. destruct (moves_before_newline Code a0 b) as [k Hk]. fold a in Hk.
  pose proof (moves_consumed (length a) Code a ltac:(lia)) as Hcons.
  change initial with (config Code 0 []). split.
  - exists k. rewrite !iterate_config by lia. cbv zeta.
    by rewrite !drop_0, Hk.
  - intros out. rewrite iterate_config by lia. cbv zeta. rewrite drop_0.
    intros Hrun%(inj Some). apply config_inj in Hrun as (Hnext & _ & _).
    exists (scan Code a), (scan Code b).
    rewrite !remove_comments_swift_scan. split_and!; [done|done|]. f_equal.
    unfold scan at 1.
    rewrite (moves_enough (length (a ++ b)) (k + length (a ++ b))) by lia.
    rewrite moves_add. cbv zeta. cbn [emitted]. rewrite Hk, Hnext, Hcons.
    rewrite drop_app_length.
    rewrite (moves_enough (length (a ++ b)) (length b))
      by (rewrite ?length_app; lia).
    unfold join, scan. by rewrite concat_app.
Qed.

Lemma scan_in_two_parts_witness :
  ∃ ra rb,
    remove_comments_swift (chars "a // b" ++ [newline]) = Some ra
    ∧ remove_comments_swift (chars "c /* d */") = Some rb
    ∧ remove_comments_swift ((chars "a // b" ++ [newline]) ++ chars "c /* d */")
      = Some (ra ++ rb).
Proof.
  exact (proj2 (scan_in_two_parts (chars "a // b") (chars "c /* d */"))
           [chars "a"; chars " "; [newline]] eq_refl).
Defined.

(** * Further properties of the workflow *)


(** X11.  Whatever its outcome, a call of [process_file] changes at most
    the one file its path resolves to.  Paths resolve as before, the same
    files are read-only, the trace only grows, and every other file keeps
    its text, so a path that does not resolve to that file reads as
    before.  The file itself keeps its text or gets the output of the
    scanner on it, which is strictly shorter; every path that resolves to
    the file then reads the new text. *)
Theorem process_file_effect (file_path : string) (w : world) :
  let w' := world_of (process_file file_path w) in
  inode w' = inode w
  ∧ read_only w' = read_only w
  ∧ trace w `prefix_of` trace w'
  ∧ (∀ g, inode w !! file_path ≠ Some g → texts w' !! g = texts w !! g)
  ∧ (∀ p, inode w !! p ≠ inode w !! file_path → read_text w' p = read_text w p)
  ∧ (∀ f content,
       inode w !! file_path = Some f → texts w !! f = Some content →
       ∃ new_content,
         texts w' !! f = Some new_content
         ∧ (new_content = content
            ∨ (remove_comments_swift content = Some new_content
               ∧ length new_content < length content))).
Proof.
  assert (∀ w1 : world, inode w1 = inode w → texts w1 = texts w →
            ∀ p, read_text w1 p = read_text w p) as Hsame.
  { intros w1 Hi Ht p. unfold read_text, read_file. by rewrite Hi, Ht. }
  destruct (process_file_cases file_path w)
    as [[Hnone ->]|(f & content & new_content & Hread & Hscan & Hsub & Hcases)].
  { simpl. split_and!; try done. intros f content Hf Hc.
    by rewrite (proj2 (read_file_Some file_path w f content) (conj Hf Hc))
      in Hnone. }
  apply read_file_Some in Hread as [Hf Hc].
  destruct Hcases as [[Heq ->]|[(Hneq & Hro & ->)|(Hneq & Hro & ->)]]; simpl.
  - split_and!; [done|done|by apply prefix_app_r|done|intros p _; by apply Hsame|].
    intros f' c' Hf' Hc'. exists c'. split; [done|by left].
  - split_and!; [done|done|by apply prefix_app_r|done|intros p _; by apply Hsame|].
    intros f' c' Hf' Hc'. exists c'. split; [done|by left].
  - split_and!; [done|done|by apply prefix_app_r| | |].
    + intros g Hg. rewrite lookup_insert_ne; [done|congruence].
    + intros p Hp. unfold read_text, read_file. simpl.
      destruct (inode w !! p) as [g|] eqn:Hg; simpl; [|done].
      rewrite lookup_insert_ne; [done|congruence].
    + intros f' c' Hf' Hc'. rewrite Hf in Hf'. injection Hf' as <-.
      rewrite Hc in Hc'. injection Hc' as <-.
      exists new_content. rewrite lookup_insert_eq. split; [done|].
      right. split; [done|].
      apply sublist_length in Hsub as Hlen.
      destruct (decide (length content ≤ length new_content)); [|lia].
      by destruct Hneq; apply sublist_same_length.
Qed.

Lemma process_file_done_again (path : string) (w w1 : world) f content :
  read_file path w = Some (f, content) →
  process_file path w = Done w1 →
  read_file path w1 = Some (f, scan Code content).
Proof.
  intros Hread.
  destruct (process_file_cases path w)
    as [[Hnone _]|(f' & c' & new_content & Hread' & Hscan & _ & Hcases)];
    [congruence|].
  rewrite Hread in Hread'. injection Hread' as <- <-.
  rewrite remove_comments_swift_scan in Hscan. injection Hscan as <-.
  apply read_file_Some in Hread as [Hf Hc].
  destruct Hcases as [[Heq ->]|[(Hneq & Hro & ->)|(Hneq & Hro & ->)]];
    [|done|]; intros [= <-]; apply read_file_Some; simpl.
  - by rewrite Heq.
  - by rewrite lookup_insert_eq.
Qed.

(** X12.  When the text of a file nowhere has two double quotes directly
    followed by a slash and a star, a second run of [process_file] on the
    same path finds nothing to do: it leaves the file store as the first
    run left it and only reports that there are no comments. *)
Theorem process_file_again (file_path : string) (w w1 : world)
    (content : list ascii) :
  read_text w file_path = Some content →
  occurs quotes_then_block content = false →
  process_file file_path w = Done w1 →
  process_file file_path w1
  = Done (World (inode w1) (texts w1) (read_only w1)
            (trace w1 ++ [Print ("No comments found in " +:+ file_path)%string])).
Proof.
  unfold read_text. intros Hread Hocc Hrun.
  destruct (read_file file_path w) as [[f c]|] eqn:Hrf; [|done].
  injection Hread as ->.
  pose proof (process_file_done_again _ _ _ _ _ Hrf Hrun) as Hrf1.
  unfold process_file. rewrite Hrf1, remove_comments_swift_scan.
  rewrite (scan_twice Code) by done.
  by rewrite bool_decide_eq_false_2 by (by intros ?).
Qed.

Lemma process_file_again_witness :
  ∃ w1,
    process_file "a.swift"
      (World {[ "a.swift"%string := 7 ]} {[ 7 := chars "x // y" ]} ∅ [])
    = Done w1
    ∧ process_file "a.swift" w1
      = Done (World (inode w1) (texts w1) (read_only w1)
                (trace w1 ++ [Print ("No comments found in " +:+ "a.swift")%string])).
Proof.
  destruct (process_file "a.swift"
              (World {[ "a.swift"%string := 7 ]} {[ 7 := chars "x // y" ]} ∅ []))
    as [w1|e w1] eqn:Hrun; [|by vm_compute in Hrun].
  exists w1. split; [done|].
  apply (process_file_again "a.swift"
           (World {[ "a.swift"%string := 7 ]} {[ 7 := chars "x // y" ]} ∅ [])
           w1 (chars "x // y")).
  - vm_compute. reflexivity.
  - reflexivity.
  - done.
Defined.

(** * Properties of the traversal *)

Lemma store_shrinks_refl (w : world) : store_shrinks w w.
Proof.
  split_and!; [done|done|]. intros f. by destruct (texts w !! f); constructor.
Qed.

Lemma store_shrinks_trans (w1 w2 w3 : world) :
  store_shrinks w1 w2 → store_shrinks w2 w3 → store_shrinks w1 w3.
Proof.
  intros (Hi & Hr & H12) (Hi' & Hr' & H23).
  split_and!; [congruence|congruence|]. intros f.
  specialize (H12 f). specialize (H23 f).
  destruct H12 as [c1 c2 H12|]; inversion H23; subst; constructor.
  by etrans.
Qed.

Lemma store_shrinks_print (line : string) (w : world) :
  store_shrinks w (print line w).
Proof. apply (store_shrinks_refl w). Qed.


Lemma printed_app (t1 t2 : list event) :
  printed (t1 ++ t2) = printed t1 ++ printed t2.
Proof. unfold printed. apply omap_app. Qed.

(** What one call of [process_file] does to the files and to the lines
    printed. *)
Lemma process_file_spec (path : string) (w : world) :
  let o := process_file path w in
  store_shrinks w (world_of o)
  ∧ (∀ g, inode w !! path ≠ Some g → texts (world_of o) !! g = texts w !! g)
  ∧ ∃ lines,
      printed (trace (world_of o)) = printed (trace w) ++ lines
      ∧ match o with
        | Done _ =>
          lines = [("Cleaning " +:+ path)%string]
          ∨ lines = [("No comments found in " +:+ path)%string]
        | Raised ReadFailed _ => lines = []
        | Raised WriteFailed _ => lines = [("Cleaning " +:+ path)%string]
        | Raised ScanFailed _ => False
        end.
Proof.
  cbv zeta.
  destruct (process_file_effect path w) as (Hi & Hr & _ & Hother & _ & Hown).
  split_and!; [|done|].
  - split_and!; [done|done|]. intros g.
    destruct (decide (inode w !! path = Some g)) as [Hg|Hg].
    + destruct (texts w !! g) as [content|] eqn:Hc.
      * destruct (Hown g content Hg Hc) as (new_content & -> & Hnew).
        constructor. destruct Hnew as [->|[Hscan _]]; [done|].
        rewrite remove_comments_swift_scan in Hscan. injection Hscan as <-.
        apply scan_sublist.
      * destruct (process_file_cases path w)
          as [[_ ->]|(f & c & n & Hread & _)].
        -- simpl. rewrite Hc. constructor.
        -- apply read_file_Some in Hread as [Hf Hc']. congruence.
    + rewrite Hother by done. by destruct (texts w !! g); constructor.
  - destruct (process_file_cases path w)
      as [[_ ->]|(f & c & n & _ & _ & _ & Hcases)].
    { exists []. by rewrite app_nil_r. }
    destruct Hcases as [[_ ->]|[(_ & _ & ->)|(_ & _ & ->)]]; simpl;
      rewrite printed_app; eauto.
Qed.

Section MainFacts.
Variable walk : string → list (string * list string * list string).
Variable splitext : string → string * string.
Variable path_join : string → string → string.
Variable exception_text : error → string → string.

#[local] Abbreviation visit_file :=
  (visit_file splitext path_join exception_text).
#[local] Abbreviation visit_directory :=
  (visit_directory splitext path_join exception_text).
#[local] Abbreviation main := (main walk splitext path_join exception_text).
#[local] Abbreviation selected_in := (selected_in splitext path_join).
#[local] Abbreviation selected := (selected walk splitext path_join).

#[local] Abbreviation visits := (visits exception_text).

Lemma visits_nil (w : world) : visits [] w w.
Proof.
  split_and!; [apply store_shrinks_refl|done|].
  exists []. by rewrite app_nil_r.
Qed.

Lemma visits_app (sel1 sel2 : list string) (w1 w2 w3 : world) :
  visits sel1 w1 w2 → visits sel2 w2 w3 → visits (sel1 ++ sel2) w1 w3.
Proof.
  intros (Hs & Hf & blocks & Hp & Hr) (Hs' & Hf' & blocks' & Hp' & Hr').
  split_and!.
  - by eapply store_shrinks_trans.
  - intros g [H1 H2]%Forall_app. rewrite Hf'; [by apply Hf|].
    destruct Hs as (-> & _). done.
  - exists (blocks ++ blocks'). split; [|by apply Forall2_app].
    by rewrite Hp', Hp, concat_app, app_assoc.
Qed.

Lemma visit_file_spec (dirpath filename : string) (w : world) :
  visits (if bool_decide ((splitext filename).2 ∈ extensions)
          then [path_join dirpath filename] else [])
         w (visit_file dirpath filename w).
Proof.
  unfold visit_file. cbv zeta.
  destruct (bool_decide ((splitext filename).2 ∈ extensions));
    [|apply visits_nil].
  set (full_path := path_join dirpath filename).
  destruct (process_file_spec full_path w) as (Hs & Hother & lines & Hp & Ho).
  destruct (process_file full_path w) as [w'|e w']; simpl in *.
  - split_and!; [done| |].
    + intros g [Hg _]%Forall_cons. by apply Hother.
    + exists [lines]. simpl. rewrite app_nil_r. split; [done|].
      constructor; [|constructor]. unfold report_of. destruct Ho; eauto.
  - split_and!.
    + eapply store_shrinks_trans; [done|apply store_shrinks_print].
    + intros g [Hg _]%Forall_cons. by apply Hother.
    + eexists [lines ++ [_]]. simpl.
      rewrite app_nil_r, printed_app, Hp, app_assoc. split; [done|].
      constructor; [|constructor]. unfold report_of.
      destruct e; [subst lines| done |subst lines]; simpl; eauto.
Qed.

Lemma visit_directory_spec (entry : string * list string * list string)
    (w : world) :
  visits (selected_in entry) w (visit_directory w entry).
Proof.
  unfold visit_directory, selected_in.
  destruct entry as [[dirpath dirnames] filenames]. simpl.
  revert w. induction filenames as [|filename filenames IH]; intros w.
  - apply visits_nil.
  - cbn [foldl]. rewrite bind_cons.
    eapply visits_app; [apply visit_file_spec|apply IH].
Qed.

Lemma walk_spec (entries : list (string * list string * list string))
    (w : world) :
  visits (entries ≫= selected_in) w (foldl visit_directory w entries).
Proof.
  revert w. induction entries as [|entry entries IH]; intros w.
  - apply visits_nil.
  - cbn [foldl]. rewrite bind_cons.
    eapply visits_app; [apply visit_directory_spec|apply IH].
Qed.


(** X14.  Only the files that selected paths resolve to are touched: a
    path that resolves to none of the files named by a walked file name
    with the extension of the allow-list reads as before. *)
Theorem main_other_files (prog root_dir : string) (rest : list string)
    (w : world) (p : string) :
  Forall (λ q, inode w !! q ≠ inode w !! p) (selected root_dir) →
  read_text (main (prog :: root_dir :: rest) w).2 p = read_text w p.
Proof.
  intros Hsel. simpl.
  destruct (walk_spec (walk root_dir) w) as ((Hi & _) & Hother & _).
  unfold read_text, read_file. rewrite Hi.
  destruct (inode w !! p) as [g|] eqn:Hg; simpl; [|done].
  by rewrite Hother.
Qed.

End MainFacts.

Lemma main_other_files_witness :
  let walk := λ _ : string,
    [("src"%string, @nil string, ["a.swift"%string; "link.swift"%string])] in
  let splitext := λ f : string,
    if String.eqb f "a.swift" then ("a"%string, ".swift"%string)
    else ("link"%string, ".swift"%string) in
  let path_join := λ d f : string, (d +:+ "/" +:+ f)%string in
  let exception_text := λ (_ : error) (_ : string), "denied"%string in
  let w := World {[ "src/a.swift"%string := 1;
                    "src/link.swift"%string := 2;
                    "other/notes.txt"%string := 2;
                    "other/b.txt"%string := 3 ]}
                 {[ 1 := chars "x // y"; 2 := chars "n // m";
                    3 := chars "z // t" ]}
                 {[ 1 ]} [] in
  read_text (main walk splitext path_join exception_text
                  ["clean_comments.py"%string; "src"%string] w).2
            "other/b.txt"
  = read_text w "other/b.txt".
Proof.
  intros walk splitext path_join exception_text w.
  apply main_other_files.
  repeat constructor; by vm_compute.
Defined.
